(** * Slot extraction of the HotPepper gourmet dialogue system

    A shallow embedding of
    [dialogue_system/language_understanding/attribute_extraction/extractor.py]:
    the BIO span-merge loop of [NamedEntityExtractor.extract], the label
    ordering of [NamedEntityExtractor.evaluate], the construction of the
    tagger wrapper, and the three rule-based lookups of
    [AttributeExtractor].

    Python values are embedded as follows.
    - [str] is a list of Unicode code points, so that [len], slicing,
      comparison and [in] work on code points as in Python 3.
    - a list is a [list]; [l[i]] is the lookup [l !! i], which raises
      [IndexError] when it is [None].
    - a [dict] with string keys is a [gmap str _]; a [set] is a [gset]
      where only membership matters and a list in iteration order where the
      code iterates over it.
    - exceptions are the [Raise] outcome of [result]. *)

From Stdlib Require Import NArith ZArith Ascii String Lia.
From stdpp Require Import base list gmap strings sorting.

#[local] Open Scope N_scope.
#[local] Open Scope nat_scope.

(** ** Python strings *)

Definition char := N.
Definition str := list char.

(** String literals of the development are written as UTF-8 text and
    decoded to code points by [u]. *)
Fixpoint utf8_decode (bs : list N) (need : nat) (acc : N) : str :=
  match bs with
  | [] => []
  | b :: bs' =>
      match need with
      | O =>
          if (b <? 128)%N then b :: utf8_decode bs' 0 0%N
          else if (b <? 224)%N then utf8_decode bs' 1 (b - 192)%N
          else if (b <? 240)%N then utf8_decode bs' 2 (b - 224)%N
          else utf8_decode bs' 3 (b - 240)%N
      | S O => (acc * 64 + (b - 128))%N :: utf8_decode bs' 0 0%N
      | S n => utf8_decode bs' n (acc * 64 + (b - 128))%N
      end
  end.

Definition u (s : string) : str :=
  utf8_decode (List.map N_of_ascii (list_ascii_of_string s)) 0 0%N.

(** [s.startswith(prefix)] *)
Fixpoint startswith (s prefix : str) : bool :=
  match prefix, s with
  | [], _ => true
  | p :: prefix', c :: s' => (p =? c)%N && startswith s' prefix'
  | _ :: _, [] => false
  end.

(** [needle in text] *)
Fixpoint contains (text needle : str) : bool :=
  startswith text needle
  || match text with
     | [] => false
     | _ :: text' => contains text' needle
     end.

(** [s.split(sep)] for a separator of one character. *)
Fixpoint split (sep : char) (s : str) : list str :=
  match s with
  | [] => [[]]
  | c :: s' =>
      if (c =? sep)%N then [] :: split sep s'
      else match split sep s' with
           | w :: ws => (c :: w) :: ws
           | [] => [[c]]
           end
  end.

(** [s.split(sep, 1)]: split at the first separator only. *)
Fixpoint split1 (sep : char) (s : str) : list str :=
  match s with
  | [] => [[]]
  | c :: s' =>
      if (c =? sep)%N then [[]; s']
      else match split1 sep s' with
           | w :: ws => (c :: w) :: ws
           | [] => [[c]]
           end
  end.

(** [sep.join(ws)] *)
Fixpoint join (sep : str) (ws : list str) : str :=
  match ws with
  | [] => []
  | w :: ws' =>
      match ws' with
      | [] => w
      | _ :: _ => w ++ sep ++ join sep ws'
      end
  end.

(** [s[:-1]] *)
Definition drop_last (s : str) : str := take (length s - 1) s.

(** [list(set(l))]: the distinct elements. The order in which a Python set
    yields several elements is not specified; the code below only builds
    sets of one element this way. *)
Definition pyset (l : list str) : list str := remove_dups l.

(** Python's [<] on sequences: lexicographic, a proper prefix is smaller. *)
Fixpoint lex_ltb {A : Type} (lt : A → A → bool) (l1 l2 : list A) : bool :=
  match l1, l2 with
  | [], [] => false
  | [], _ :: _ => true
  | _ :: _, [] => false
  | a :: l1', b :: l2' => lt a b || (negb (lt b a) && lex_ltb lt l1' l2')
  end.

Definition str_ltb : str → str → bool := lex_ltb N.ltb.

(** A stable sort. [before y x] says that [y] has to come strictly before
    [x]; elements that are not ordered by [before] keep their input order,
    as in [sorted] and [list.sort]. *)
Fixpoint insert_sorted {A : Type} (before : A → A → bool) (x : A) (l : list A) : list A :=
  match l with
  | [] => [x]
  | y :: l' => if before y x then y :: insert_sorted before x l' else x :: l
  end.

Definition stable_sort {A : Type} (before : A → A → bool) (l : list A) : list A :=
  foldr (insert_sorted before) [] l.

(** ** Outcomes *)

Inductive exn : Type :=
| IndexError
| FileNotFoundError
| LibraryError (msg : string).

(** [OutOfFuel] is the outcome of a loop whose iteration bound was too
    small; [merge_never_out_of_fuel] shows that [merge_spans] never has
    it. *)
Inductive result (A : Type) : Type :=
| Ok (a : A)
| Raise (e : exn)
| OutOfFuel.

Arguments Ok {A} a.
Arguments Raise {A} e.
Arguments OutOfFuel {A}.

(** What the scan of [extract] does at index [i]: it opens a span on a
    [B] label (line 48 reads [sent[i][0]]), overwrites the open span on an
    [I] label that continues it (line 52 reads [sent[i][0]]), or passes
    over the label (line 58). The events are a ghost log of the run. *)
Inductive event : Type :=
| Open (i : nat)
| Overwrite (i : nat)
| Skip (i : nat).

Definition event_index (e : event) : nat :=
  match e with
  | Open i | Overwrite i | Skip i => i
  end.

Definition reads_sent (e : event) : bool :=
  match e with
  | Open _ | Overwrite _ => true
  | Skip _ => false
  end.

(** Computations that may raise and that log events. *)
Definition M (A : Type) : Type := list event → result A * list event.

#[global] Instance M_ret : MRet M := λ A a tr, (Ok a, tr).

#[global] Instance M_bind : MBind M := λ A B f m tr,
  match m tr with
  | (Ok a, tr') => f a tr'
  | (Raise e, tr') => (Raise e, tr')
  | (OutOfFuel, tr') => (OutOfFuel, tr')
  end.

Definition emit (e : event) : M unit := λ tr, (Ok (), tr ++ [e]).
Definition throw {A : Type} (e : exn) : M A := λ tr, (Raise e, tr).
Definition out_of_fuel {A : Type} : M A := λ tr, (OutOfFuel, tr).

(** [l[i]] for [0 <= i] *)
Definition getitem {A : Type} (l : list A) (i : nat) : M A :=
  match l !! i with
  | Some x => mret x
  | None => throw IndexError
  end.

(** ** NamedEntityExtractor *)

(** A token is a pair whose first component is the surface form; the
    second is the feature bag, which the merge loop never looks at. *)
Definition token (F : Type) : Type := str * F.

(** A span [[TYPE, text]]. *)
Definition span : Type := str * str.

Definition hyphen : char := 45%N.

(** The part of [pycrfsuite] the class uses. A [Tagger] is the state of a
    [pycrfsuite.Tagger] object; [Tagger_open] may change it and may
    raise. *)
Class CRFSuite : Type := {
  xseq : Type;
  features : Type;
  Tagger : Type;
  Tagger_new : Tagger;
  Tagger_open : Tagger → str → result unit * Tagger;
  Tagger_tag : Tagger → xseq → result (list str)
}.

(** [os.path.join(d, f)] on POSIX. *)
Definition path_join (d f : str) : str :=
  if startswith f (u "/") then f
  else match last d with
       | None => f
       | Some c => if (c =? 47)%N then d ++ f else d ++ u "/" ++ f
       end.

Module NamedEntityExtractor.

(** The object: its only attribute is [self.__tagger]. *)
Record t `{CRFSuite} : Type := { __tagger : Tagger }.

(** Lines 17-23. The outcome comes with what was printed. [module_dir] is
    [os.path.dirname(__file__)]. *)
Definition __init__ `{CRFSuite} (module_dir : str) (model_file : str)
    : result t * list str :=
  let file_path := path_join module_dir model_file in
  match Tagger_open Tagger_new file_path with
  | (Ok _, tg) => (Ok {| __tagger := tg |}, [])
  | (Raise FileNotFoundError, tg) => (Ok {| __tagger := tg |}, [u "Learn"])
  | (Raise e, _) => (Raise e, [])
  | (OutOfFuel, _) => (OutOfFuel, [])
  end.

(** Lines 51-54, the inner [while]. *)
Fixpoint inner_while {F : Type} (fuel : nat) (pred_y : list str) (sent : list (token F))
    (i : nat) (word_stack label_stack : list str) : M (nat * list str * list str) :=
  match fuel with
  | 0 => out_of_fuel
  | S fuel' =>
      match pred_y !! i with
      | Some l =>
          if startswith l (u "I") then
            emit (Overwrite i);;
            tok ← getitem sent i;
            inner_while fuel' pred_y sent (S i) [tok.1] [l]
          else mret (i, word_stack, label_stack)
      | None => mret (i, word_stack, label_stack)
      end
  end.

(** Lines 55-56: the type of the span is read off the label stack and the
    span is appended to [res]. *)
Definition close_span (word_stack label_stack : list str) (res : list span) : M (list span) :=
  types ← mapM (λ l, getitem (split hyphen l) 1) label_stack;
  mret (res ++ [(join [] (pyset types), join [] word_stack)]).

(** Lines 46-58, the outer [while]. *)
Fixpoint outer_while {F : Type} (fuel : nat) (pred_y : list str) (sent : list (token F))
    (i : nat) (res : list span) : M (list span) :=
  match fuel with
  | 0 => out_of_fuel
  | S fuel' =>
      match pred_y !! i with
      | Some l =>
          if startswith l (u "B") then
            emit (Open i);;
            tok ← getitem sent i;
            '(i', word_stack, label_stack) ← inner_while fuel' pred_y sent (S i) [tok.1] [l];
            res' ← close_span word_stack label_stack res;
            outer_while fuel' pred_y sent i' res'
          else
            emit (Skip i);;
            outer_while fuel' pred_y sent (S i) res
      | None => mret res
      end
  end.

(** Lines 44-60: the scan over the predicted labels, from [i = 0] and
    [res = []]. Every iteration of either loop advances [i], so
    [len(pred_y) + 1] iterations are enough. *)
Definition merge_spans {F : Type} (pred_y : list str) (sent : list (token F)) : M (list span) :=
  outer_while (S (length pred_y)) pred_y sent 0 [].

(** Lines 38-60. *)
Definition extract `{CRFSuite} (self : t) (xs : xseq) (sent : list (token features))
    : result (list span) :=
  match Tagger_tag (__tagger self) xs with
  | Ok pred_y => (merge_spans pred_y sent []).1
  | Raise e => Raise e
  | OutOfFuel => OutOfFuel
  end.

(** Lines 62-63. *)
Definition tagger `{CRFSuite} (self : t) (xs : xseq) : result (list str) :=
  Tagger_tag (__tagger self) xs.

(** [lb.classes_] after line 67: the distinct labels of the flattened gold
    sequences in ascending order. *)
Definition classes_ (y_true : list (list str)) : list str :=
  stable_sort str_ltb (remove_dups (concat y_true)).

(** The sort key of line 71, [tag.split('-', 1)[::-1]]. *)
Definition sort_key (tag : str) : list str := reverse (split1 hyphen tag).

Definition key_before (a b : str) : bool :=
  lex_ltb str_ltb (sort_key a) (sort_key b).

(** Lines 70-71 of [evaluate]: the labels of the report, passed to it as
    [target_names]. The predicted sequences do not enter. *)
Definition tagset (y_true y_pred : list (list str)) : list str :=
  let tagset : gset str := list_to_set (classes_ y_true) ∖ {[ u "O" ]} in
  stable_sort key_before (elements tagset).

End NamedEntityExtractor.

(** ** AttributeExtractor *)

Inductive pyval : Type :=
| PyInt (z : Z)
| PyStr (s : str).

(** [\d] in a [str] pattern matches the decimal digits of Unicode; the
    table belongs to the interpreter and is a parameter here. *)
Class UnicodeDecimal : Type := is_decimal : char → bool.

(** [kansuji2arabic] of
    [dialogue_system/language_understanding/utils/utils.py] is not among
    the sources at hand; it is a parameter here, a function from strings
    to Python values, and nothing is assumed about the values it gives.
    Line 112 calls it on every path, also with the empty string. *)
Class NumeralConversion : Type := {
  kansuji2arabic : str → pyval
}.

Definition yen : char := 20870%N.

Definition kansuji_chars : str :=
  u "一二三四五六七八九十壱弐参拾百千万萬億兆〇".

Definition is_kansuji (c : char) : bool := bool_decide (c ∈ kansuji_chars).

(** A match of [C+円] at the start of [s], as the backtracking matcher
    finds it: the length of the match. [C+] is greedy, so a longer
    repetition is tried before the suffix. *)
Fixpoint match_plus_yen (C : char → bool) (s : str) : option nat :=
  match s with
  | [] => None
  | c :: s' =>
      if C c then
        match match_plus_yen C s' with
        | Some n => Some (S n)
        | None =>
            match s' with
            | d :: _ => if (d =? yen)%N then Some 2 else None
            | [] => None
            end
        end
      else None
  end.

(** The pattern of line 109 at the start of [s]: the first alternative
    that matches. *)
Definition pattern_at `{UnicodeDecimal} (s : str) : option nat :=
  match match_plus_yen is_decimal s with
  | Some n => Some n
  | None => match_plus_yen is_kansuji s
  end.

(** [re.findall] for that pattern: the matches from left to right, without
    overlap. [skip] counts the characters of the last match still to pass
    over. *)
Fixpoint findall_from `{UnicodeDecimal} (skip : nat) (s : str) : list str :=
  match s with
  | [] => []
  | _ :: s' =>
      match skip with
      | S k => findall_from k s'
      | 0 =>
          match pattern_at s with
          | Some n => take n s :: findall_from (n - 1) s'
          | None => findall_from 0 s'
          end
      end
  end.

Definition findall `{UnicodeDecimal} (text : str) : list str := findall_from 0 text.

Module AttributeExtractor.

(** The two dictionaries read by [__init__], in the order in which the
    object iterates over them. *)
Record t : Type := {
  __locations : list str;
  __genres : list (str * list str)
}.

(** Lines 94-99. *)
Definition __extract_location (self : t) (text : str) : str :=
  let locations := List.filter (λ loc, contains text loc) (__locations self) in
  let locations := stable_sort (λ y x, length x <? length y) locations in
  match locations with
  | loc :: _ => loc
  | [] => []
  end.

(** Lines 103-105; [Some] is a [return]. *)
Fixpoint foods_loop (food_genre : str) (foods : list str) (text : str) : option str :=
  match foods with
  | [] => None
  | food :: foods' =>
      if contains text food then Some food_genre
      else foods_loop food_genre foods' text
  end.

(** Lines 102-106. *)
Fixpoint genres_loop (items : list (str * list str)) (text : str) : str :=
  match items with
  | [] => []
  | (food_genre, foods) :: items' =>
      match foods_loop food_genre foods text with
      | Some r => r
      | None => genres_loop items' text
      end
  end.

Definition __extract_genre (self : t) (text : str) : str :=
  genres_loop (__genres self) text.

(** Lines 108-114. *)
Definition __extract_budget `{UnicodeDecimal} `{NumeralConversion} (text : str) : pyval :=
  let matchOB := findall text in
  let budget_str := match matchOB with
                    | m :: _ => drop_last m
                    | [] => []
                    end in
  kansuji2arabic budget_str.

(** Lines 88-92. *)
Definition extract `{UnicodeDecimal} `{NumeralConversion} (self : t) (text : str)
    : gmap str pyval :=
  <[u "MAXIMUM_AMOUNT" := __extract_budget text]>
    (<[u "GENRE" := PyStr (__extract_genre self text)]>
       (<[u "LOCATION" := PyStr (__extract_location self text)]> ∅)).

End AttributeExtractor.

(** ** The scan in the words of the spec

    These definitions do not come from the code: they say what the spec
    says about the spans, and the theorems below compare the loops with
    them. *)

(** The length of the run of [I] labels at the head of [labels]. *)
Fixpoint run_len (labels : list str) : nat :=
  match labels with
  | l :: labels' => if startswith l (u "I") then S (run_len labels') else 0
  | [] => 0
  end.

(** The label and the surface form of the last position of the run of [I]
    labels at the head of [labels]; [(l0, w0)] when there is no such
    run. *)
Fixpoint run_last {F : Type} (labels : list str) (toks : list (token F)) (l0 w0 : str)
    : str * str :=
  match labels, toks with
  | l :: labels', tok :: toks' =>
      if startswith l (u "I") then run_last labels' toks' l tok.1 else (l0, w0)
  | _, _ => (l0, w0)
  end.

(** The TYPE of a label: what stands between its first and its second
    hyphen. *)
Definition type_of (l : str) : str :=
  match split hyphen l !! 1 with
  | Some ty => ty
  | None => []
  end.

(** One span per label that starts with [B], from left to right: its type
    and text are those of the last position of the [B I ... I] run. *)
Fixpoint spans_spec {F : Type} (labels : list str) (toks : list (token F)) : list span :=
  match labels, toks with
  | l :: labels', tok :: toks' =>
      if startswith l (u "B") then
        (type_of (run_last labels' toks' l tok.1).1, (run_last labels' toks' l tok.1).2)
          :: spans_spec labels' toks'
      else spans_spec labels' toks'
  | _, _ => []
  end.

(** What the scan does at each index, [i] being the index of the head of
    [labels] and [in_run] telling whether a span is open there. *)
Fixpoint scan_events (labels : list str) (i : nat) (in_run : bool) : list event :=
  match labels with
  | [] => []
  | l :: labels' =>
      if startswith l (u "B") then Open i :: scan_events labels' (S i) true
      else if in_run && startswith l (u "I") then Overwrite i :: scan_events labels' (S i) true
      else Skip i :: scan_events labels' (S i) false
  end.

(** A label of the BIO scheme: [O], [B-TYPE] or [I-TYPE]. *)
Definition is_bio (l : str) : bool :=
  bool_decide (l = u "O") || startswith l (u "B-") || startswith l (u "I-").

(** Every label that starts with [B] or [I] has a type: line 55 finds
    what it reads. *)
Definition typed_labels (pred_y : list str) : Prop :=
  ∀ l, l ∈ pred_y →
       startswith l (u "B") || startswith l (u "I") = true →
       is_Some (split hyphen l !! 1).

(** Whether the label at index [i] belongs to a span: it starts with [B],
    or it starts with [I] and the label before it belongs to a span. *)
Fixpoint in_span (labels : list str) (i : nat) : bool :=
  match labels !! i with
  | None => false
  | Some l =>
      startswith l (u "B")
      || (startswith l (u "I")
          && match i with
             | 0 => false
             | S j => in_span labels j
             end)
  end.

(** An orphaned [I] label: it starts with [I] and belongs to no span. *)
Definition orphan (labels : list str) (i : nat) : bool :=
  match labels !! i with
  | Some l => startswith l (u "I") && negb (in_span labels i)
  | None => false
  end.

(** The number of labels that start with [B]. *)
Definition count_B (labels : list str) : nat :=
  length (List.filter (λ l, startswith l (u "B")) labels).

(** What the scan of the spec does at index [p]. *)
Definition event_at (labels : list str) (p : nat) : event :=
  match labels !! p with
  | Some l =>
      if startswith l (u "B") then Open p
      else if in_span labels p then Overwrite p
      else Skip p
  | None => Skip p
  end.

(** The last position of a span: it belongs to a span and the next label,
    if any, does not start with [I]. *)
Definition closing (labels : list str) (e : nat) : Prop :=
  in_span labels e = true
  ∧ ∀ l, labels !! S e = Some l → startswith l (u "I") = false.

(** No span is open at index [i]: the label at [i] does not continue a
    span of the label before it. *)
Definition no_open_run (labels : list str) (i : nat) : Prop :=
  match i with
  | 0 => True
  | S j => in_span labels j = true → ∀ l, labels !! i = Some l → startswith l (u "I") = false
  end.

(** ** The rule-based lookups in the words of the spec *)

(** [needle] occurs in [text] as a substring. *)
Definition occurs_in (needle text : str) : Prop :=
  ∃ pre post, text = pre ++ needle ++ post.

(** The (genre, food) pairs of the genre dictionary in the order of the
    nested iteration. *)
Definition genre_pairs (items : list (str * list str)) : list (str * str) :=
  flat_map (λ item, map (pair item.1) item.2) items.

(** A match of the budget pattern: one or more decimal digits, or one or
    more numeral glyphs, followed by the currency suffix. *)
Definition is_budget_match `{UnicodeDecimal} (m : str) : Prop :=
  ∃ ns, ns ≠ []
        ∧ (Forall (λ c, is_decimal c = true) ns ∨ Forall (λ c, is_kansuji c = true) ns)
        ∧ m = ns ++ [yen].

(** A match of the budget pattern starts at the head of [s]. *)
Definition matches_at `{UnicodeDecimal} (s : str) : Prop :=
  ∃ m post, is_budget_match m ∧ s = m ++ post.

(** ** The label indices of [evaluate] *)

(** Line 72 of [evaluate], [{cls: idx for idx, cls in
    enumerate(lb.classes_)}]: a later entry for a key replaces an earlier
    one. *)
Definition evaluate_class_indices (classes : list str) : gmap str nat :=
  foldl (λ m ic, <[ic.2 := ic.1]> m) ∅ (imap pair classes).

(** Line 77 of [evaluate], [[class_indices[cls] for cls in tagset]];
    [None] stands for the [KeyError] of a missing key. *)
Definition evaluate_labels (y_true y_pred : list (list str)) : option (list nat) :=
  mapM (λ cls, evaluate_class_indices (NamedEntityExtractor.classes_ y_true) !! cls) (NamedEntityExtractor.tagset y_true y_pred).

(** ** Stand-ins for the collaborators

    They serve to evaluate the classes on concrete inputs. *)

(** A tagging library whose feature sequence is a label sequence, which a
    tagger with a model predicts as it is; [files] are the model files
    that exist. *)
Definition fake_crf (files : list str) : CRFSuite :=
  {| xseq := list str;
     features := unit;
     Tagger := bool;
     Tagger_new := false;
     Tagger_open := λ tg p,
       if bool_decide (p ∈ files) then (Ok (), true) else (Raise FileNotFoundError, tg);
     Tagger_tag := λ tg xs,
       if tg then Ok xs else Raise (LibraryError "The tagger is not opened") |}.


(** An extractor over it whose tagger holds a model. *)
Definition fake_trained : @NamedEntityExtractor.t (fake_crf []) :=
  @NamedEntityExtractor.Build_t (fake_crf []) true.


(** The ASCII digits, as a class of decimal digits. *)
Definition ascii_decimal : UnicodeDecimal := λ c, ((48 <=? c) && (c <=? 57))%N.

Definition numeral_table : list (char * Z) :=
  zip (u "0123456789〇一二三四五六七八九壱弐参")
      [0; 1; 2; 3; 4; 5; 6; 7; 8; 9; 0; 1; 2; 3; 4; 5; 6; 7; 8; 9; 1; 2; 3]%Z.

Definition small_unit_table : list (char * Z) :=
  zip (u "十拾百千") [10; 10; 100; 1000]%Z.

Definition large_unit_table : list (char * Z) :=
  zip (u "万萬億兆") [10000; 10000; 100000000; 1000000000000]%Z.

Definition table_value (table : list (char * Z)) (c : char) : option Z :=
  snd <$> List.find (λ entry, (entry.1 =? c)%N) table.

(** Reads a numeral from left to right; the state is the total of the
    closed groups, the value of the group being read and the digits read
    last. *)
Definition numeral_step (st : Z * Z * Z) (c : char) : Z * Z * Z :=
  let '(total, group, digits) := st in
  match table_value numeral_table c, table_value small_unit_table c,
        table_value large_unit_table c with
  | Some d, _, _ => (total, group, digits * 10 + d)%Z
  | None, Some m, _ => (total, group + (if (digits =? 0)%Z then 1 else digits) * m, 0)%Z
  | None, None, Some m =>
      (total + (if (group + digits =? 0)%Z then 1 else group + digits) * m, 0, 0)%Z
  | None, None, None => st
  end.

Definition numeral_value (s : str) : Z :=
  let '(total, group, digits) := foldl numeral_step (0, 0, 0)%Z s in
  (total + group + digits)%Z.

(** A numeral conversion that reads positional digits and the numeral
    glyphs with their units, and gives the empty string for the empty
    string. *)
Definition simple_numerals : NumeralConversion :=
  {| kansuji2arabic := λ s, match s with
                            | [] => PyStr []
                            | _ :: _ => PyInt (numeral_value s)
                            end |}.

(** * Proofs *)

(** ** The monad and the string primitives *)

Import NamedEntityExtractor.

Ltac unfold_M :=
  repeat unfold getitem, mbind, M_bind, mret, M_ret, emit, throw, out_of_fuel;
  cbn beta iota delta [fst snd].

Lemma startswith_nil (s : str) : startswith s [] = true.
Proof. by destruct s. Qed.

Lemma startswith_single (c : char) (s : str) :
  startswith s [c] = true ↔ ∃ s', s = c :: s'.
Proof.
  destruct s as [|d s]; cbn [startswith].
  - split; [done|]. by intros [? ?].
  - rewrite startswith_nil, andb_true_r, N.eqb_eq. split.
    + intros ->. by eexists.
    + by intros [? [= -> _]].
Qed.

Lemma startswith_app (s p : str) :
  startswith s p = true ↔ ∃ s', s = p ++ s'.
Proof.
  revert s. induction p as [|c p IH]; intros s.
  - rewrite startswith_nil. split; [|done]. intros _. by exists s.
  - destruct s as [|d s]; simpl.
    + split; [done|]. by intros [? ?].
    + rewrite andb_true_iff, N.eqb_eq, IH. split.
      * intros [-> [s' ->]]. by exists s'.
      * intros [s' [= -> ->]]. split; [done|]. by exists s'.
Qed.

Arguments u : simpl never.
Arguments startswith : simpl never.

Lemma bind_eq {A B : Type} (m : M A) (f : A → M B) (tr : list event) :
  (m ≫= f) tr
  = match m tr with
    | (Ok a, tr') => f a tr'
    | (Raise e, tr') => (Raise e, tr')
    | (OutOfFuel, tr') => (OutOfFuel, tr')
    end.
Proof. done. Qed.

Lemma getitem_Some {A : Type} (l : list A) (i : nat) (x : A) (tr : list event) :
  l !! i = Some x → getitem l i tr = (Ok x, tr).
Proof. intros H. unfold getitem. by rewrite H. Qed.

Lemma getitem_None {A : Type} (l : list A) (i : nat) (tr : list event) :
  l !! i = None → getitem l i tr = (Raise IndexError, tr).
Proof. intros H. unfold getitem. by rewrite H. Qed.

Lemma startswith_B_not_I (l : str) :
  startswith l (u "B") = true → startswith l (u "I") = false.
Proof.
  intros [s' ->]%startswith_single.
  apply not_true_is_false. by intros [? [=]]%startswith_single.
Qed.

Lemma run_len_le (labels : list str) : run_len labels ≤ length labels.
Proof.
  induction labels as [|l labels IH]; simpl; [lia|].
  destruct (startswith l (u "I")); lia.
Qed.

(** The inner loop logs one [Overwrite] per label of the run it passes. *)
Lemma inner_while_trace {F : Type} (pred_y : list str) (sent : list (token F)) :
  ∀ fuel i ws ls tr,
    length pred_y - i < fuel →
    ∃ j, j ≤ run_len (drop i pred_y)
         ∧ (inner_while fuel pred_y sent i ws ls tr).2 = tr ++ map Overwrite (seq i j)
         ∧ (inner_while fuel pred_y sent i ws ls tr).1 ≠ OutOfFuel
         ∧ ∀ x, (inner_while fuel pred_y sent i ws ls tr).1 = Ok x →
                j = run_len (drop i pred_y) ∧ x.1.1 = i + j.
Proof.
  induction fuel as [|fuel IH]; intros i ws ls tr Hfuel; [lia|].
  simpl. destruct (pred_y !! i) as [l|] eqn:Hl.
  - rewrite (drop_S _ _ _ Hl). simpl.
    destruct (startswith l (u "I")) eqn:HI.
    + unfold_M. destruct (sent !! i) as [tok|] eqn:Htok.
      * apply lookup_lt_Some in Hl.
        destruct (IH (S i) [tok.1] [l] (tr ++ [Overwrite i])) as (j & Hj & Htr & Hne & Hok); [lia|].
        exists (S j). split; [lia|]. split; [|split].
        -- rewrite Htr. simpl. by rewrite <- app_assoc.
        -- done.
        -- intros x Hx. destruct (Hok x Hx) as [-> ->]. split; [done|lia].
      * exists 1. split; [lia|]. simpl. split; [done|]. split; [done|]. intros x Hx. done.
    + exists 0. simpl. rewrite app_nil_r.
      split; [lia|]. split; [done|]. split; [done|].
      intros x [= <-]. simpl. lia.
  - rewrite (drop_ge pred_y i) by (by apply lookup_ge_None). simpl.
    exists 0. simpl. rewrite app_nil_r.
    split; [lia|]. split; [done|]. split; [done|].
    intros x [= <-]. simpl. lia.
Qed.

Lemma split_nonempty (sep : char) (s : str) : split sep s ≠ [].
Proof.
  induction s as [|c s IH]; simpl; [done|].
  destruct (c =? sep)%N; [done|]. by destruct (split sep s).
Qed.

Lemma split_cons_ne (sep c : char) (s : str) :
  c ≠ sep → split sep (c :: s) = (c :: default [] (head (split sep s))) :: tail (split sep s).
Proof.
  intros Hne. simpl. apply N.eqb_neq in Hne. rewrite Hne.
  pose proof (split_nonempty sep s). by destruct (split sep s).
Qed.

(** A label with a [B-] or [I-] prefix has a type. *)
Lemma prefixed_label_typed (c : char) (l : str) :
  c ≠ hyphen → startswith l [c; hyphen] = true → is_Some (split hyphen l !! 1).
Proof.
  intros Hc [s' ->]%startswith_app.
  change ([c; hyphen] ++ s') with (c :: hyphen :: s').
  rewrite split_cons_ne by done.
  change (split hyphen (hyphen :: s')) with ([] :: split hyphen s').
  simpl. pose proof (split_nonempty hyphen s'). destruct (split hyphen s'); [done|].
  by eexists.
Qed.

Lemma is_bio_typed (pred_y : list str) :
  Forall (λ l, is_bio l = true) pred_y → typed_labels pred_y.
Proof.
  intros Hbio l Hl HBI. rewrite Forall_forall in Hbio. specialize (Hbio l Hl).
  unfold is_bio in Hbio. rewrite !orb_true_iff in Hbio.
  destruct Hbio as [[HO%bool_decide_eq_true | HB] | HI].
  - subst l. done.
  - by apply (prefixed_label_typed 66%N).
  - by apply (prefixed_label_typed 73%N).
Qed.

Lemma run_last_label {F : Type} (labels : list str) (toks : list (token F)) (l0 w0 : str) :
  (run_last labels toks l0 w0).1 = l0
  ∨ ((run_last labels toks l0 w0).1 ∈ labels
     ∧ startswith (run_last labels toks l0 w0).1 (u "I") = true).
Proof.
  revert toks l0 w0. induction labels as [|l labels IH]; intros toks l0 w0; simpl; [by left|].
  destruct toks as [|tok toks]; [by left|].
  destruct (startswith l (u "I")) eqn:HI; [|by left].
  right. destruct (IH toks l tok.1) as [-> | [Hin Hst]].
  - split; [apply list_elem_of_here | done].
  - split; [by apply list_elem_of_further | done].
Qed.

(** With a token for every label, the inner loop ends after the run of
    [I] labels with the label and the surface form of its last position on
    the stacks. *)
Lemma inner_while_result {F : Type} (pred_y : list str) (sent : list (token F)) :
  length pred_y ≤ length sent →
  ∀ fuel i l0 w0 tr,
    length pred_y - i < fuel →
    (inner_while fuel pred_y sent i [w0] [l0] tr).1
    = Ok (i + run_len (drop i pred_y),
          [(run_last (drop i pred_y) (drop i sent) l0 w0).2],
          [(run_last (drop i pred_y) (drop i sent) l0 w0).1]).
Proof.
  intros Hlen. induction fuel as [|fuel IH]; intros i l0 w0 tr Hfuel; [lia|].
  simpl. destruct (pred_y !! i) as [l|] eqn:Hl.
  - rewrite (drop_S _ _ _ Hl).
    pose proof (lookup_lt_Some _ _ _ Hl) as Hi.
    destruct (lookup_lt_is_Some_2 sent i) as [tok Htok]; [lia|].
    rewrite (drop_S _ _ _ Htok). simpl.
    destruct (startswith l (u "I")) eqn:HI.
    + unfold_M. rewrite Htok. cbn beta iota.
      rewrite IH by lia. do 2 f_equal. f_equal. lia.
    + unfold_M. do 2 f_equal. f_equal. lia.
  - rewrite (drop_ge pred_y i) by (by apply lookup_ge_None). simpl.
    unfold_M. do 2 f_equal. f_equal. lia.
Qed.

Lemma mapM_getitem_trace (ls : list str) (tr : list event) :
  (mapM (λ l, getitem (split hyphen l) 1) ls tr).2 = tr
  ∧ (mapM (λ l, getitem (split hyphen l) 1) ls tr).1 ≠ OutOfFuel.
Proof.
  induction ls as [|l ls IH]; simpl; [done|].
  rewrite bind_eq. destruct (split hyphen l !! 1) as [ty|] eqn:Hty.
  - rewrite (getitem_Some _ _ _ _ Hty), bind_eq.
    destruct (mapM (M:=M) (λ l, getitem (split hyphen l) 1) ls tr) as [[tys|e|] tr'].
    all: unfold mret, M_ret; simpl in *; destruct IH; split; congruence.
  - by rewrite (getitem_None _ _ _ Hty).
Qed.

(** Closing a span logs nothing and is not a loop. *)
Lemma close_span_trace (ws ls : list str) (res : list span) (tr : list event) :
  (close_span ws ls res tr).2 = tr ∧ (close_span ws ls res tr).1 ≠ OutOfFuel.
Proof.
  unfold close_span. destruct (mapM_getitem_trace ls tr) as [H1 H2].
  rewrite bind_eq.
  destruct (mapM (M:=M) (λ l, getitem (split hyphen l) 1) ls tr) as [[tys|e|] tr'];
    unfold mret, M_ret; simpl in *; split; congruence.
Qed.

Lemma join_single (sep w : str) : join sep [w] = w.
Proof. done. Qed.

(** Closing a span whose stacks hold one label with a type and one word. *)
Lemma close_span_single (w l ty : str) (res : list span) (tr : list event) :
  split hyphen l !! 1 = Some ty →
  close_span [w] [l] res tr = (Ok (res ++ [(ty, w)]), tr).
Proof.
  intros Hty. unfold close_span. simpl. unfold_M. rewrite Hty. done.
Qed.

Lemma close_span_untyped (w l : str) (res : list span) (tr : list event) :
  split hyphen l !! 1 = None →
  close_span [w] [l] res tr = (Raise IndexError, tr).
Proof.
  intros Hty. unfold close_span. simpl. unfold_M. rewrite Hty. done.
Qed.

(** From inside a span, the scan overwrites along the run of [I] labels
    and goes on as from outside a span. *)
Lemma scan_events_run (labels : list str) (i : nat) :
  scan_events labels i true
  = map Overwrite (seq i (run_len labels))
    ++ scan_events (drop (run_len labels) labels) (i + run_len labels) false.
Proof.
  revert i. induction labels as [|l labels IH]; intros i; simpl; [done|].
  destruct (startswith l (u "I")) eqn:HI.
  - destruct (startswith l (u "B")) eqn:HB.
    { apply startswith_B_not_I in HB. congruence. }
    simpl. rewrite IH. do 2 f_equal. f_equal. lia.
  - rewrite Nat.add_0_r. simpl. by destruct (startswith l (u "B")).
Qed.

(** The log of the outer loop from index [i] is a prefix of what the spec
    lists from there, all of it when the loop returns; the loop never runs
    out of iterations. *)
Lemma outer_while_trace {F : Type} (pred_y : list str) (sent : list (token F)) :
  ∀ fuel i res tr,
    length pred_y - i < fuel →
    ∃ E, (outer_while fuel pred_y sent i res tr).2 = tr ++ E
         ∧ E `prefix_of` scan_events (drop i pred_y) i false
         ∧ (outer_while fuel pred_y sent i res tr).1 ≠ OutOfFuel
         ∧ ∀ r, (outer_while fuel pred_y sent i res tr).1 = Ok r →
                E = scan_events (drop i pred_y) i false.
Proof.
  induction fuel as [|fuel IH]; intros i res tr Hfuel; [lia|].
  simpl. destruct (pred_y !! i) as [l|] eqn:Hl.
  - rewrite (drop_S _ _ _ Hl). simpl.
    pose proof (lookup_lt_Some _ _ _ Hl) as Hi.
    destruct (startswith l (u "B")) eqn:HB.
    + rewrite scan_events_run.
      rewrite bind_eq. unfold emit. cbn beta iota. rewrite bind_eq.
      destruct (sent !! i) as [tok|] eqn:Htok.
      2:{ rewrite (getitem_None _ _ _ Htok). exists [Open i].
          split; [done|]. split; [by apply prefix_cons, prefix_nil|].
          simpl. split; [done | by intros r ?]. }
      rewrite (getitem_Some _ _ _ _ Htok), bind_eq.
      destruct (inner_while_trace pred_y sent fuel (S i) [tok.1] [l] (tr ++ [Open i]))
        as (j & Hj & Htr & Hne & Hok); [lia|].
      destruct (inner_while fuel pred_y sent (S i) [tok.1] [l] (tr ++ [Open i]))
        as [[[[i' ws] ls]|e|] tr1] eqn:Einner; simpl in Htr, Hne, Hok; [| |done].
      2:{ exists (Open i :: map Overwrite (seq (S i) j)).
          split; [by rewrite Htr, <- app_assoc|].
          split; [|simpl; split; [done | by intros r ?]].
          apply prefix_cons, prefix_app_r.
          rewrite <- (take_drop j (seq (S i) (run_len (drop (S i) pred_y)))) at 1.
          rewrite take_seq, Nat.min_l by done. rewrite map_app. by apply prefix_app_r. }
      destruct (Hok _ eq_refl) as [-> Hi']. simpl in Hi'. subst i'.
      rewrite bind_eq.
      destruct (close_span_trace ws ls res tr1) as [Hc1 Hc2].
      destruct (close_span ws ls res tr1) as [[res'|e|] tr2]; simpl in Hc1, Hc2; [| |done].
      2:{ subst tr2. exists (Open i :: map Overwrite (seq (S i) (run_len (drop (S i) pred_y)))).
          split; [by rewrite Htr, <- app_assoc|].
          split; [|simpl; split; [done | by intros r ?]].
          by apply prefix_cons, prefix_app_r. }
      subst tr2.
      destruct (IH (S i + run_len (drop (S i) pred_y)) res' tr1) as (E & HE & Hpre & Hnf & Hall).
      { pose proof (run_len_le (drop (S i) pred_y)). rewrite length_drop in *. lia. }
      rewrite drop_drop. cbn [Nat.add] in *.
      exists (Open i :: map Overwrite (seq (S i) (run_len (drop (S i) pred_y))) ++ E).
      split; [|split; [|split]].
      * rewrite HE, Htr. by rewrite <- !app_assoc.
      * apply prefix_cons. by apply prefix_app.
      * done.
      * intros r Hr. by rewrite (Hall r Hr).
    + rewrite bind_eq. unfold emit. cbn beta iota.
      destruct (IH (S i) res (tr ++ [Skip i])) as (E & HE & Hpre & Hnf & Hall); [lia|].
      exists (Skip i :: E). split; [|split; [|split]].
      * rewrite HE. by rewrite <- app_assoc.
      * by apply prefix_cons.
      * done.
      * intros r Hr. by rewrite (Hall r Hr).
  - rewrite (drop_ge pred_y i) by (by apply lookup_ge_None). simpl.
    exists []. rewrite app_nil_r. unfold mret, M_ret. simpl.
    split; [done|]. split; [done|]. split; [done | by intros r ?].
Qed.

(** The labels of a run of [I] labels open no span. *)
Lemma spans_spec_skip_run {F : Type} (labels : list str) (toks : list (token F)) :
  spans_spec labels toks
  = spans_spec (drop (run_len labels) labels) (drop (run_len labels) toks).
Proof.
  revert toks. induction labels as [|l labels IH]; intros toks; simpl.
  - by destruct toks.
  - destruct (startswith l (u "I")) eqn:HI; [|done].
    destruct toks as [|tok toks]; simpl.
    + by destruct (drop (run_len labels) labels).
    + destruct (startswith l (u "B")) eqn:HB.
      { apply startswith_B_not_I in HB. congruence. }
      apply IH.
Qed.

(** With a token for every label and a type on every label that starts
    with [B] or [I], the outer loop from index [i] appends the spans of the
    spec for the labels from [i] on. *)
Lemma outer_while_result {F : Type} (pred_y : list str) (sent : list (token F)) :
  length pred_y ≤ length sent →
  typed_labels pred_y →
  ∀ fuel i res tr,
    length pred_y - i < fuel →
    (outer_while fuel pred_y sent i res tr).1
    = Ok (res ++ spans_spec (drop i pred_y) (drop i sent)).
Proof.
  intros Hlen Hty. induction fuel as [|fuel IH]; intros i res tr Hfuel; [lia|].
  simpl. destruct (pred_y !! i) as [l|] eqn:Hl.
  - rewrite (drop_S _ _ _ Hl).
    pose proof (lookup_lt_Some _ _ _ Hl) as Hi.
    destruct (lookup_lt_is_Some_2 sent i) as [tok Htok]; [lia|].
    rewrite (drop_S _ _ _ Htok). simpl.
    destruct (startswith l (u "B")) eqn:HB.
    + rewrite bind_eq. unfold emit. cbn beta iota.
      rewrite bind_eq, (getitem_Some _ _ _ _ Htok), bind_eq.
      pose proof (inner_while_result pred_y sent Hlen fuel (S i) l tok.1 (tr ++ [Open i])) as Hin.
      destruct (inner_while fuel pred_y sent (S i) [tok.1] [l] (tr ++ [Open i]))
        as [r1 tr1]. simpl in Hin. rewrite Hin by lia. clear Hin.
      set (ll := (run_last (drop (S i) pred_y) (drop (S i) sent) l tok.1).1).
      set (lw := (run_last (drop (S i) pred_y) (drop (S i) sent) l tok.1).2).
      assert (is_Some (split hyphen ll !! 1)) as [ty Hll].
      { destruct (run_last_label (drop (S i) pred_y) (drop (S i) sent) l tok.1)
          as [Heq | [Hin HI]]; fold ll in Heq || fold ll in Hin, HI.
        - rewrite Heq. apply Hty; [by eapply list_elem_of_lookup_2|].
          by rewrite HB.
        - apply Hty; [|by rewrite HI, orb_true_r].
          apply list_elem_of_lookup in Hin as [k Hk].
          rewrite lookup_drop in Hk. by eapply list_elem_of_lookup_2. }
      rewrite bind_eq, (close_span_single _ _ _ _ _ Hll).
      rewrite IH.
      2:{ pose proof (run_len_le (drop (S i) pred_y)). rewrite length_drop in *. lia. }
      unfold type_of. rewrite Hll. simpl. rewrite <- app_assoc. simpl.
      rewrite (spans_spec_skip_run (drop (S i) pred_y) (drop (S i) sent)).
      by rewrite !drop_drop.
    + rewrite bind_eq. unfold emit. cbn beta iota. by rewrite IH by lia.
  - rewrite (drop_ge pred_y i) by (by apply lookup_ge_None). simpl.
    by rewrite app_nil_r.
Qed.

(** The scan never runs out of iterations. *)
Lemma merge_never_out_of_fuel {F : Type} (pred_y : list str) (sent : list (token F))
    (tr : list event) :
  (merge_spans pred_y sent tr).1 ≠ OutOfFuel.
Proof.
  unfold merge_spans.
  destruct (outer_while_trace pred_y sent (S (length pred_y)) 0 [] tr) as (E & _ & _ & H & _);
    [lia | done].
Qed.

Lemma merge_spans_result {F : Type} (pred_y : list str) (sent : list (token F))
    (tr : list event) :
  length pred_y ≤ length sent →
  typed_labels pred_y →
  (merge_spans pred_y sent tr).1 = Ok (spans_spec pred_y sent).
Proof.
  intros Hlen Hty. unfold merge_spans.
  rewrite (outer_while_result pred_y sent Hlen Hty) by lia. done.
Qed.

(** ** The scan of the spec *)

Lemma scan_events_length (labels : list str) (i : nat) (b : bool) :
  length (scan_events labels i b) = length labels.
Proof.
  revert i b. induction labels as [|l labels IH]; intros i b; simpl; [done|].
  destruct (startswith l (u "B")); [|destruct (b && startswith l (u "I"))];
    simpl; by rewrite IH.
Qed.

Lemma scan_events_index (labels : list str) (i : nat) (b : bool) :
  map event_index (scan_events labels i b) = seq i (length labels).
Proof.
  revert i b. induction labels as [|l labels IH]; intros i b; simpl; [done|].
  destruct (startswith l (u "B")); [|destruct (b && startswith l (u "I"))];
    simpl; by rewrite IH.
Qed.

Lemma in_span_unfold (labels : list str) (k : nat) :
  in_span labels k
  = match labels !! k with
    | None => false
    | Some l =>
        startswith l (u "B")
        || (startswith l (u "I")
            && match k with
               | 0 => false
               | S j => in_span labels j
               end)
    end.
Proof. by destruct k. Qed.

(** The scan of the spec, event by event. *)
Lemma scan_events_event_at (labels : list str) :
  ∀ n k, n = length labels - k →
    scan_events (drop k labels) k (match k with 0 => false | S j => in_span labels j end)
    = map (event_at labels) (seq k n).
Proof.
  induction n as [|n IH]; intros k Hn.
  - rewrite drop_ge by lia. done.
  - destruct (lookup_lt_is_Some_2 labels k) as [l Hl]; [lia|].
    rewrite (drop_S _ _ _ Hl). simpl.
    assert (in_span labels k
            = startswith l (u "B")
              || (startswith l (u "I")
                  && match k with 0 => false | S j => in_span labels j end)) as Hin.
    { by rewrite in_span_unfold, Hl. }
    specialize (IH (S k) ltac:(lia)). cbn beta iota in IH.
    unfold event_at at 1. rewrite Hl.
    destruct (startswith l (u "B")) eqn:HB.
    + simpl in Hin. rewrite Hin in IH. by rewrite IH.
    + simpl in Hin. rewrite andb_comm in Hin. rewrite Hin in IH |- *.
      destruct (match k with 0 => false | S j => in_span labels j end && startswith l (u "I"));
        by rewrite IH.
Qed.

Lemma scan_events_all (labels : list str) :
  scan_events labels 0 false = map (event_at labels) (seq 0 (length labels)).
Proof.
  rewrite <- (scan_events_event_at labels (length labels) 0) by lia. done.
Qed.

Lemma count_B_app (l1 l2 : list str) : count_B (l1 ++ l2) = count_B l1 + count_B l2.
Proof. unfold count_B. by rewrite List.filter_app, length_app. Qed.

Lemma spans_spec_length {F : Type} (labels : list str) (toks : list (token F)) :
  length labels ≤ length toks → length (spans_spec labels toks) = count_B labels.
Proof.
  revert toks. induction labels as [|l labels IH]; intros toks Hlen; [done|].
  destruct toks as [|tok toks]; simpl in Hlen; [lia|].
  unfold count_B. simpl. destruct (startswith l (u "B")); simpl; rewrite IH by lia; done.
Qed.

(** A run of [I] labels that ends inside [pre] is not changed by what follows
    [pre]. *)
Lemma run_last_app {F : Type} (pre rest : list str) (toks : list (token F)) (l0 w0 : str) :
  length pre ≤ length toks →
  (∀ l, head rest = Some l → startswith l (u "I") = false) →
  run_last (pre ++ rest) toks l0 w0 = run_last pre (take (length pre) toks) l0 w0.
Proof.
  intros Hlen Hhead. revert toks l0 w0 Hlen.
  induction pre as [|l pre IH]; intros toks l0 w0 Hlen; simpl.
  - destruct rest as [|r rest]; [done|]. destruct toks as [|tok toks]; [done|].
    simpl. by rewrite (Hhead r).
  - destruct toks as [|tok toks]; simpl in Hlen; [lia|]. simpl.
    destruct (startswith l (u "I")); [|done]. apply IH. lia.
Qed.

(** The spans of the labels before a label that starts no [I] run come
    first, those from that label on come after. *)
Lemma spans_spec_app {F : Type} (pre rest : list str) (toks : list (token F)) :
  length pre ≤ length toks →
  (∀ l, head rest = Some l → startswith l (u "I") = false) →
  spans_spec (pre ++ rest) toks
  = spans_spec pre (take (length pre) toks) ++ spans_spec rest (drop (length pre) toks).
Proof.
  intros Hlen Hhead. revert toks Hlen.
  induction pre as [|l pre IH]; intros toks Hlen; simpl.
  - by rewrite drop_0.
  - destruct toks as [|tok toks]; simpl in Hlen; [lia|]. simpl.
    rewrite IH by lia. rewrite run_last_app by (done || lia).
    by destruct (startswith l (u "B")).
Qed.

(** The run after a [B] label: the last label of the run and the surface
    form at its position. *)
Lemma run_last_run {F : Type} (run post : list str) (toks : list (token F))
    (l0 w0 ll : str) (tok : token F) :
  Forall (λ l, startswith l (u "I") = true) run →
  (∀ l, head post = Some l → startswith l (u "I") = false) →
  last run = Some ll →
  toks !! (length run - 1) = Some tok →
  run_last (run ++ post) toks l0 w0 = (ll, tok.1).
Proof.
  intros Hrun Hpost. revert toks l0 w0.
  induction Hrun as [|l run Hl Hrun IH]; intros toks l0 w0 Hlast Htok; [done|].
  destruct toks as [|tok0 toks]; [done|]. simpl. rewrite Hl.
  destruct run as [|l' run].
  - simpl in *. injection Hlast as <-. injection Htok as <-.
    destruct post as [|p post]; [done|]. destruct toks as [|tok1 toks]; [done|].
    simpl. by rewrite (Hpost p).
  - apply IH; [done|].
    replace (length (l :: l' :: run) - 1) with (S (length (l' :: run) - 1)) in Htok
      by (simpl; lia).
    done.
Qed.

(** The span of the [B] label after [pre] is the span number [count_B pre]. *)
Lemma spans_spec_at_B {F : Type} (pre post : list str) (b : str) (sent : list (token F))
    (tok : token F) :
  length (pre ++ b :: post) ≤ length sent →
  startswith b (u "B") = true →
  sent !! length pre = Some tok →
  spans_spec (pre ++ b :: post) sent !! count_B pre
  = Some (type_of (run_last post (drop (S (length pre)) sent) b tok.1).1,
          (run_last post (drop (S (length pre)) sent) b tok.1).2).
Proof.
  intros Hlen HB Htok. rewrite length_app in Hlen. simpl in Hlen.
  rewrite spans_spec_app; [|lia|].
  2:{ intros l [= <-]. by apply startswith_B_not_I. }
  rewrite lookup_app_r; rewrite spans_spec_length; rewrite ?length_take; try lia.
  rewrite Nat.sub_diag, (drop_S _ _ _ Htok). simpl. by rewrite HB.
Qed.

Lemma extract_merge `{CRFSuite} (self : t) (xs : xseq) (sent : list (token features))
    (pred_y : list str) :
  tagger self xs = Ok pred_y →
  extract self xs sent = (merge_spans pred_y sent []).1.
Proof. unfold tagger, extract. by intros ->. Qed.

Lemma outer_while_not_B {F : Type} (pred_y : list str) (sent : list (token F))
    (fuel i : nat) (l : str) (res : list span) (tr : list event) :
  pred_y !! i = Some l →
  startswith l (u "B") = false →
  outer_while (S fuel) pred_y sent i res tr
  = outer_while fuel pred_y sent (S i) res (tr ++ [Skip i]).
Proof. intros Hl HB. simpl. by rewrite Hl, HB. Qed.

Lemma outer_while_all_O {F : Type} (pred_y : list str) (sent : list (token F)) :
  Forall (λ l, l = u "O") pred_y →
  ∀ fuel i res tr,
    length pred_y - i < fuel →
    (outer_while fuel pred_y sent i res tr).1 = Ok res.
Proof.
  intros HO. induction fuel as [|fuel IH]; intros i res tr Hfuel; [lia|].
  destruct (pred_y !! i) as [l|] eqn:Hl.
  - rewrite (outer_while_not_B _ _ _ _ l) by
      (done || by rewrite (proj1 (Forall_lookup _ _) HO i l Hl)).
    apply IH. apply lookup_lt_Some in Hl. lia.
  - simpl. by rewrite Hl.
Qed.

(** C1: when the labels hold a [B] label followed by a run of one or
    more [I] labels, the span that [extract] emits for it (the span number
    [count_B pre], [pre] being the labels before the [B]) has the type of
    the last label of the run and the surface form of the last token of
    the run, not their concatenation; the labels B-LOC, I-LOC, O on the
    tokens 千葉, 県, です give the one span [LOC, 県]. *)
Theorem extract_last_token_of_run `{CRFSuite} (self : t) (xs : xseq) :
  (∀ (pred_y : list str) (sent : list (token features)) (pre run post : list str)
     (b ll : str) (tok : token features),
      tagger self xs = Ok pred_y →
      Forall (λ l, is_bio l = true) pred_y →
      length pred_y ≤ length sent →
      pred_y = pre ++ b :: run ++ post →
      startswith b (u "B") = true →
      Forall (λ l, startswith l (u "I") = true) run →
      (∀ l, head post = Some l → startswith l (u "I") = false) →
      last run = Some ll →
      sent !! (length pre + length run) = Some tok →
      ∃ res, extract self xs sent = Ok res
             ∧ res !! count_B pre = Some (type_of ll, tok.1))
  ∧ (∀ f1 f2 f3 : features,
      tagger self xs = Ok [u "B-LOC"; u "I-LOC"; u "O"] →
      extract self xs [(u "千葉", f1); (u "県", f2); (u "です", f3)]
      = Ok [(u "LOC", u "県")]).
Proof.
  split.
  - intros pred_y sent pre run post b ll tok Htag Hbio Hlen -> HB Hrun Hpost Hlast Htok.
    rewrite (extract_merge _ _ _ _ Htag).
    rewrite merge_spans_result by (done || by apply is_bio_typed).
    eexists. split; [done|].
    assert (length run ≠ 0) as Hne by (by destruct run).
    assert (is_Some (sent !! length pre)) as [tok0 Htok0].
    { apply lookup_lt_is_Some_2. apply lookup_lt_Some in Htok. lia. }
    rewrite (spans_spec_at_B pre (run ++ post) b sent tok0) by done.
    rewrite (run_last_run run post _ _ _ ll tok); [done..|].
    rewrite lookup_drop. rewrite <- Htok. f_equal. lia.
  - intros f1 f2 f3 Htag. by rewrite (extract_merge _ _ _ _ Htag).
Qed.

Lemma extract_last_token_of_run_witness :
  ∃ res,
    @extract (fake_crf []) fake_trained [u "O"; u "B-LOC"; u "I-LOC"; u "I-LOC"; u "O"]
      [(u "ここ", ()); (u "千", ()); (u "葉", ()); (u "県", ()); (u "です", ())]
    = Ok res
    ∧ res !! 0 = Some (u "LOC", u "県").
Proof.
  apply (proj1 (@extract_last_token_of_run (fake_crf []) fake_trained
                  [u "O"; u "B-LOC"; u "I-LOC"; u "I-LOC"; u "O"])
           [u "O"; u "B-LOC"; u "I-LOC"; u "I-LOC"; u "O"]
           [(u "ここ", ()); (u "千", ()); (u "葉", ()); (u "県", ()); (u "です", ())]
           [u "O"] [u "I-LOC"; u "I-LOC"] [u "O"] (u "B-LOC") (u "I-LOC") (u "県", ())).
  - reflexivity.
  - repeat constructor.
  - simpl. lia.
  - reflexivity.
  - reflexivity.
  - repeat constructor.
  - intros l [= <-]. reflexivity.
  - reflexivity.
  - reflexivity.
Defined.

(** C2: [extract] returns one span per label that starts with [B], in
    the order of the text: there are as many spans as such labels, and the
    span of a [B] label is the span number [count_B pre], [pre] being the
    labels before it. Labels that are all [O] give no span, and the one
    label B-GENRE on the token ラーメン gives the one span
    [GENRE, ラーメン]. *)
Theorem extract_one_span_per_B_label `{CRFSuite} (self : t) (xs : xseq) :
  (∀ (pred_y : list str) (sent : list (token features)),
      tagger self xs = Ok pred_y →
      Forall (λ l, is_bio l = true) pred_y →
      length pred_y ≤ length sent →
      ∃ res, extract self xs sent = Ok res
             ∧ length res = count_B pred_y
             ∧ ∀ pre b post tok,
                 pred_y = pre ++ b :: post →
                 startswith b (u "B") = true →
                 sent !! length pre = Some tok →
                 res !! count_B pre
                 = Some (type_of (run_last post (drop (S (length pre)) sent) b tok.1).1,
                         (run_last post (drop (S (length pre)) sent) b tok.1).2))
  ∧ (∀ (pred_y : list str) (sent : list (token features)),
      tagger self xs = Ok pred_y →
      Forall (λ l, l = u "O") pred_y →
      extract self xs sent = Ok [])
  ∧ (∀ f : features,
      tagger self xs = Ok [u "B-GENRE"] →
      extract self xs [(u "ラーメン", f)] = Ok [(u "GENRE", u "ラーメン")]).
Proof.
  split; [|split].
  - intros pred_y sent Htag Hbio Hlen.
    rewrite (extract_merge _ _ _ _ Htag).
    rewrite merge_spans_result by (done || by apply is_bio_typed).
    eexists. split; [done|]. split; [by apply spans_spec_length|].
    intros pre b post tok -> HB Htok. by apply spans_spec_at_B.
  - intros pred_y sent Htag HO. rewrite (extract_merge _ _ _ _ Htag).
    unfold merge_spans. apply outer_while_all_O; [done | lia].
  - intros f Htag. by rewrite (extract_merge _ _ _ _ Htag).
Qed.

Lemma extract_one_span_per_B_label_witness :
  ∃ res,
    @extract (fake_crf []) fake_trained [u "B-LOC"; u "O"; u "B-GENRE"; u "O"]
      [(u "千葉", ()); (u "で", ()); (u "ラーメン", ()); (u "を", ())]
    = Ok res
    ∧ length res = 2.
Proof.
  destruct (proj1 (@extract_one_span_per_B_label (fake_crf []) fake_trained
                     [u "B-LOC"; u "O"; u "B-GENRE"; u "O"])
              [u "B-LOC"; u "O"; u "B-GENRE"; u "O"]
              [(u "千葉", ()); (u "で", ()); (u "ラーメン", ()); (u "を", ())]
              eq_refl
              ltac:(repeat constructor)
              ltac:(simpl; lia)) as (res & Hres & Hlen & _).
  exists res. split; [exact Hres | exact Hlen].
Defined.

(** C9: with a token for every label, each read of [sent[i][0]] is at an
    index below the number of labels and below the number of tokens; the
    indices the scan visits are 0, 1, 2, ... in this order, each once, so
    the loop index grows strictly, and the scan ends within the iterations
    it is given. When every label that starts with [B] or [I] has a type,
    nothing is raised at all. *)
Theorem merge_reads_in_bounds {F : Type} (pred_y : list str) (sent : list (token F)) :
  length pred_y ≤ length sent →
  (merge_spans pred_y sent []).1 ≠ OutOfFuel
  ∧ (∀ e, e ∈ (merge_spans pred_y sent []).2 →
          reads_sent e = true →
          event_index e < length pred_y ∧ is_Some (sent !! event_index e))
  ∧ map event_index (merge_spans pred_y sent []).2
    = seq 0 (length (merge_spans pred_y sent []).2)
  ∧ length (merge_spans pred_y sent []).2 ≤ length pred_y
  ∧ (typed_labels pred_y → ∃ res, (merge_spans pred_y sent []).1 = Ok res).
Proof.
  intros Hlen. split; [apply merge_never_out_of_fuel|].
  unfold merge_spans.
  destruct (outer_while_trace pred_y sent (S (length pred_y)) 0 [] [])
    as (E & HE & [E' HE'] & _ & _); [lia|].
  rewrite HE. simpl. rewrite drop_0 in HE'.
  assert (map event_index E = seq 0 (length E) ∧ length E ≤ length pred_y) as [Hidx HlenE].
  { pose proof (scan_events_index pred_y 0 false) as Hall.
    pose proof (scan_events_length pred_y 0 false) as Hl.
    rewrite HE', length_app in Hl. rewrite HE', map_app in Hall.
    split; [|lia].
    apply (f_equal (take (length E))) in Hall.
    rewrite take_app_length' in Hall by (by rewrite length_map).
    rewrite Hall, take_seq. f_equal. lia. }
  split; [|split; [done|split; [done|]]].
  - intros e He _.
    assert (event_index e ∈ seq 0 (length E)) as Hin.
    { rewrite <- Hidx. by apply list_elem_of_fmap_2. }
    apply elem_of_seq in Hin. split; [lia|]. apply lookup_lt_is_Some_2. lia.
  - intros Hty. eexists. by apply (merge_spans_result pred_y sent []).
Qed.

Lemma merge_reads_in_bounds_witness :
  map event_index
    (merge_spans [u "B-LOC"; u "I-LOC"; u "O"]
       [(u "千葉", ()); (u "県", ()); (u "です", ())] []).2
  = seq 0 (length (merge_spans [u "B-LOC"; u "I-LOC"; u "O"]
                     [(u "千葉", ()); (u "県", ()); (u "です", ())] []).2).
Proof.
  apply (@merge_reads_in_bounds unit [u "B-LOC"; u "I-LOC"; u "O"]
           [(u "千葉", ()); (u "県", ()); (u "です", ())]).
  simpl. lia.
Defined.

(** What the scan of the spec does at an orphaned [I] label. *)
Lemma orphan_event (labels : list str) (i : nat) :
  orphan labels i = true → event_at labels i = Skip i.
Proof.
  unfold orphan, event_at. destruct (labels !! i) as [l|]; [|done].
  intros [HI Hin]%andb_true_iff. apply negb_true_iff in Hin. rewrite Hin.
  destruct (startswith l (u "B")) eqn:HB; [|done].
  apply startswith_B_not_I in HB. congruence.
Qed.

(** Writing [O] over a label that the scan of the spec passes over changes
    no span; [run_last] is for the case that a span is open at the head
    of [labels]. *)
Lemma spans_spec_skipped {F : Type} (labels : list str) :
  ∀ (toks : list (token F)) (i k : nat) (flag : bool) (l0 w0 : str),
    scan_events labels k flag !! i = Some (Skip (k + i)) →
    spans_spec (<[i := u "O"]> labels) toks = spans_spec labels toks
    ∧ (flag = true →
       run_last (<[i := u "O"]> labels) toks l0 w0 = run_last labels toks l0 w0).
Proof.
  induction labels as [|l labels IH]; intros toks i k flag l0 w0 Hev; [done|].
  destruct i as [|i].
  - simpl in Hev. destruct (startswith l (u "B")) eqn:HB; [done|].
    destruct flag; simpl in *.
    + destruct (startswith l (u "I")) eqn:HI; [done|].
      destruct toks as [|tok toks]; [done|]. simpl. by rewrite HB.
    + destruct toks as [|tok toks]; [done|]. simpl. by rewrite HB.
  - assert (scan_events labels (S k)
              (startswith l (u "B") || (flag && startswith l (u "I"))) !! i
            = Some (Skip (S k + i))) as Hev'.
    { simpl in Hev. replace (S k + i) with (k + S i) by lia.
      destruct (startswith l (u "B")); [done|].
      by destruct (flag && startswith l (u "I")). }
    destruct toks as [|tok toks]; [done|]. simpl.
    destruct (IH toks i (S k) _ l tok.1 Hev') as [Hspans Hrun].
    rewrite Hspans. split.
    + destruct (startswith l (u "B")) eqn:HB; [|done]. by rewrite Hrun.
    + intros ->. destruct (startswith l (u "I")) eqn:HI; [|done].
      apply Hrun. by rewrite orb_true_r.
Qed.

(** C10: an [I] label that belongs to no span is passed over. At such an
    index the outer loop goes on at the next index with the spans it had
    and logs a [Skip]; no run of the scan opens or overwrites a span there,
    so [sent] is not read at that index; and when the scan raises nothing,
    it does pass the label, and the spans are those of the labels with [O]
    written over it. *)
Theorem orphan_I_label_skipped {F : Type} (pred_y : list str) (sent : list (token F))
    (i : nat) :
  orphan pred_y i = true →
  (∀ fuel res tr,
      outer_while (S fuel) pred_y sent i res tr
      = outer_while fuel pred_y sent (S i) res (tr ++ [Skip i]))
  ∧ (∀ e, e ∈ (merge_spans pred_y sent []).2 → event_index e = i → e = Skip i)
  ∧ (length pred_y ≤ length sent →
     typed_labels pred_y →
     Skip i ∈ (merge_spans pred_y sent []).2
     ∧ (merge_spans pred_y sent []).1 = (merge_spans (<[i := u "O"]> pred_y) sent []).1).
Proof.
  intros Horphan.
  assert (∃ l, pred_y !! i = Some l ∧ startswith l (u "I") = true) as (l & Hl & HI).
  { unfold orphan in Horphan. destruct (pred_y !! i) as [l|]; [|done].
    exists l. by apply andb_true_iff in Horphan as [? _]. }
  assert (startswith l (u "B") = false) as HB.
  { destruct (startswith l (u "B")) eqn:HB; [|done].
    apply startswith_B_not_I in HB. congruence. }
  pose proof (lookup_lt_Some _ _ _ Hl) as Hi.
  assert (scan_events pred_y 0 false !! i = Some (Skip i)) as Hev.
  { rewrite scan_events_all, list_lookup_fmap, lookup_seq_lt by done.
    simpl. by rewrite orphan_event. }
  split; [|split].
  - intros fuel res tr. by apply (outer_while_not_B _ _ _ _ l).
  - intros e He Hidx. unfold merge_spans in He.
    destruct (outer_while_trace pred_y sent (S (length pred_y)) 0 [] [])
      as (E & HE & [E' HE'] & _ & _); [lia|].
    rewrite HE in He. simpl in He. rewrite drop_0 in HE'.
    apply list_elem_of_lookup in He as [j Hj].
    assert (scan_events pred_y 0 false !! j = Some e) as Hj'.
    { rewrite HE'. by apply lookup_app_l_Some. }
    assert (j = i) as ->.
    { pose proof (scan_events_index pred_y 0 false) as Hall.
      apply (f_equal (λ s, s !! j)) in Hall.
      rewrite list_lookup_fmap, Hj' in Hall. simpl in Hall.
      rewrite lookup_seq_lt in Hall.
      - injection Hall as Hall. simpl in Hall. congruence.
      - apply lookup_lt_Some in Hj'. by rewrite scan_events_length in Hj'. }
    congruence.
  - intros Hlen Hty. split.
    + unfold merge_spans.
      destruct (outer_while_trace pred_y sent (S (length pred_y)) 0 [] [])
        as (E & HE & _ & _ & Hall); [lia|].
      pose proof (outer_while_result pred_y sent Hlen Hty (S (length pred_y)) 0 [] []
                    ltac:(lia)) as Hres.
      rewrite HE, (Hall _ Hres), drop_0. simpl. by eapply list_elem_of_lookup_2.
    + rewrite !merge_spans_result; try done.
      * f_equal. symmetry.
        by apply (spans_spec_skipped pred_y sent i 0 false [] []).
      * by rewrite length_insert.
      * intros l' Hl' HBI. apply list_elem_of_lookup in Hl' as [j Hj].
        destruct (decide (i = j)) as [->|Hne].
        -- rewrite list_lookup_insert_eq in Hj by done. by injection Hj as <-.
        -- rewrite list_lookup_insert_ne in Hj by done.
           apply Hty; [by eapply list_elem_of_lookup_2 | done].
Qed.

Lemma orphan_I_label_skipped_witness :
  Skip 2 ∈ (merge_spans [u "I-LOC"; u "O"; u "I-GENRE"; u "B-LOC"]
              [(u "千葉", ()); (u "で", ()); (u "ラーメン", ()); (u "県", ())] []).2
  ∧ (merge_spans [u "I-LOC"; u "O"; u "I-GENRE"; u "B-LOC"]
       [(u "千葉", ()); (u "で", ()); (u "ラーメン", ()); (u "県", ())] []).1
    = (merge_spans (<[2 := u "O"]> [u "I-LOC"; u "O"; u "I-GENRE"; u "B-LOC"])
         [(u "千葉", ()); (u "で", ()); (u "ラーメン", ()); (u "県", ())] []).1.
Proof.
  apply (proj2 (proj2 (@orphan_I_label_skipped unit
                         [u "I-LOC"; u "O"; u "I-GENRE"; u "B-LOC"]
                         [(u "千葉", ()); (u "で", ()); (u "ラーメン", ()); (u "県", ())] 2
                         eq_refl))).
  - simpl. lia.
  - apply is_bio_typed. repeat constructor.
Defined.

(** ** NamedEntityExtractor.__init__ *)

(** C8: when opening the model file raises [FileNotFoundError],
    [__init__] raises nothing: it prints a line and returns the object
    with the tagger as the failed [open] left it. Whatever the library
    raises when that tagger is asked to tag, [tagger] and [extract] raise
    it unchanged. *)
Theorem init_without_model_file `{CRFSuite} (module_dir model_file : str)
    (tg : Tagger) (e : exn) :
  Tagger_open Tagger_new (path_join module_dir model_file) = (Raise FileNotFoundError, tg) →
  (∀ xs, Tagger_tag tg xs = Raise e) →
  ∃ self,
    __init__ module_dir model_file = (Ok self, [u "Learn"])
    ∧ __tagger self = tg
    ∧ (∀ xs, tagger self xs = Raise e)
    ∧ (∀ xs sent, extract self xs sent = Raise e).
Proof.
  intros Hopen Htag. exists {| __tagger := tg |}.
  unfold __init__, tagger, extract. rewrite Hopen. simpl.
  split; [done|]. split; [done|]. split; intros xs; [|intros sent]; by rewrite Htag.
Qed.

Lemma init_without_model_file_witness :
  ∃ self,
    @__init__ (fake_crf []) (u "/srv/dialogue") (u "model.crfsuite")
    = (Ok self, [u "Learn"])
    ∧ __tagger self = false
    ∧ (∀ xs, tagger self xs = Raise (LibraryError "The tagger is not opened"))
    ∧ (∀ xs sent, extract self xs sent = Raise (LibraryError "The tagger is not opened")).
Proof.
  apply (@init_without_model_file (fake_crf []) (u "/srv/dialogue") (u "model.crfsuite")
           false (LibraryError "The tagger is not opened")).
  - reflexivity.
  - intros xs. reflexivity.
Defined.

(** ** AttributeExtractor *)

Lemma contains_occurs (text needle : str) :
  contains text needle = true ↔ occurs_in needle text.
Proof.
  unfold occurs_in. induction text as [|c text IH]; simpl.
  - rewrite orb_false_r, startswith_app. split.
    + intros [s' Hs]. exists [], s'. done.
    + intros (pre & post & Heq). symmetry in Heq.
      apply app_eq_nil in Heq as [-> Heq]. apply app_eq_nil in Heq as [-> ->].
      by exists [].
  - rewrite orb_true_iff, startswith_app, IH. split.
    + intros [[s' Hs] | (pre & post & ->)].
      * exists [], s'. done.
      * by exists (c :: pre), post.
    + intros (pre & post & Heq). destruct pre as [|d pre].
      * left. by exists post.
      * right. injection Heq as -> ->. by exists pre, post.
Qed.

(** The head of the list sorted by decreasing length is a longest
    element. *)
Lemma stable_sort_len_head (l : list str) :
  match stable_sort (λ y x, length x <? length y) l with
  | [] => l = []
  | h :: _ => h ∈ l ∧ ∀ x, x ∈ l → length x ≤ length h
  end.
Proof.
  induction l as [|a l IH]; [done|].
  simpl. destruct (stable_sort (λ y x, length x <? length y) l) as [|h s'] eqn:Hs.
  - subst l. simpl. split; [apply list_elem_of_here|].
    by intros x ->%list_elem_of_singleton.
  - destruct IH as [Hh Hmax]. simpl.
    destruct (length a <? length h) eqn:Hlt.
    + apply Nat.ltb_lt in Hlt. split; [by apply list_elem_of_further|].
      intros x [->|Hx]%elem_of_cons; [lia | by apply Hmax].
    + apply Nat.ltb_ge in Hlt. split; [apply list_elem_of_here|].
      intros x [->|Hx]%elem_of_cons; [lia|]. specialize (Hmax x Hx). lia.
Qed.

(** C4: when entries of the location dictionary occur in the text, the
    location is one of them and no entry that occurs is longer; when none
    occurs, it is the empty string. With the dictionary of 千葉 and 千葉県,
    in either order, and the text 千葉県でラーメン it is 千葉県. *)
Theorem extract_location_longest (self : AttributeExtractor.t) (text : str) :
  ((∃ loc, loc ∈ AttributeExtractor.__locations self ∧ occurs_in loc text) →
   AttributeExtractor.__extract_location self text ∈ AttributeExtractor.__locations self
   ∧ occurs_in (AttributeExtractor.__extract_location self text) text
   ∧ ∀ loc, loc ∈ AttributeExtractor.__locations self → occurs_in loc text →
            length loc ≤ length (AttributeExtractor.__extract_location self text))
  ∧ ((∀ loc, loc ∈ AttributeExtractor.__locations self → ¬ occurs_in loc text) →
     AttributeExtractor.__extract_location self text = [])
  ∧ (∀ genres,
       AttributeExtractor.__extract_location
         {| AttributeExtractor.__locations := [u "千葉"; u "千葉県"];
            AttributeExtractor.__genres := genres |} (u "千葉県でラーメン")
       = u "千葉県"
       ∧ AttributeExtractor.__extract_location
           {| AttributeExtractor.__locations := [u "千葉県"; u "千葉"];
              AttributeExtractor.__genres := genres |} (u "千葉県でラーメン")
         = u "千葉県").
Proof.
  unfold AttributeExtractor.__extract_location.
  pose proof (stable_sort_len_head
                (List.filter (λ loc, contains text loc) (AttributeExtractor.__locations self)))
    as Hhead.
  destruct (stable_sort _ _) as [|h s'] eqn:Hs.
  - split; [|split; [done|by split]].
    intros (loc & Hin & Hocc). exfalso.
    assert (loc ∈ List.filter (λ loc, contains text loc) (AttributeExtractor.__locations self))
      as Hf.
    { apply list_elem_of_In, List.filter_In. split; [by apply list_elem_of_In|].
      by apply contains_occurs. }
    rewrite Hhead in Hf. by apply not_elem_of_nil in Hf.
  - destruct Hhead as [Hh Hmax].
    apply list_elem_of_In, List.filter_In in Hh as [Hh Hc].
    apply list_elem_of_In in Hh. apply contains_occurs in Hc.
    split; [|split; [|by split]].
    + intros _. split; [done|]. split; [done|].
      intros loc Hin Hocc. apply Hmax.
      apply list_elem_of_In, List.filter_In. split; [by apply list_elem_of_In|].
      by apply contains_occurs.
    + intros Hnone. by destruct (Hnone h Hh).
Qed.

Lemma extract_location_longest_witness :
  AttributeExtractor.__extract_location
    {| AttributeExtractor.__locations := [u "東京"; u "千葉"; u "千葉県"];
       AttributeExtractor.__genres := [] |} (u "千葉県でラーメン")
  ∈ [u "東京"; u "千葉"; u "千葉県"].
Proof.
  apply (proj1 (extract_location_longest
                  {| AttributeExtractor.__locations := [u "東京"; u "千葉"; u "千葉県"];
                     AttributeExtractor.__genres := [] |} (u "千葉県でラーメン"))).
  exists (u "千葉"). split.
  - apply list_elem_of_further, list_elem_of_here.
  - exists [], (u "県でラーメン"). reflexivity.
Defined.

Lemma foods_loop_spec (g : str) (foods : list str) (text : str) :
  AttributeExtractor.foods_loop g foods text
  = match List.find (λ gf, contains text gf.2) (map (pair g) foods) with
    | Some _ => Some g
    | None => None
    end.
Proof.
  induction foods as [|food foods IH]; simpl; [done|].
  by destruct (contains text food).
Qed.

(** The nested loops return the genre of the first (genre, food) pair
    whose food occurs in the text. *)
Lemma genres_loop_spec (items : list (str * list str)) (text : str) :
  AttributeExtractor.genres_loop items text
  = match List.find (λ gf, contains text gf.2) (genre_pairs items) with
    | Some gf => gf.1
    | None => []
    end.
Proof.
  induction items as [|[g foods] items IH]; simpl; [done|].
  unfold genre_pairs in *. simpl.
  rewrite foods_loop_spec, IH. clear IH.
  induction foods as [|food foods IH]; simpl; [done|].
  destruct (contains text food); [done|]. apply IH.
Qed.

Lemma find_first {A : Type} (p : A → bool) (before after : list A) (x : A) :
  (∀ y, y ∈ before → p y = false) → p x = true →
  List.find p (before ++ x :: after) = Some x.
Proof.
  intros Hbefore Hx. induction before as [|b before IH]; simpl.
  - by rewrite Hx.
  - rewrite (Hbefore b) by apply list_elem_of_here.
    apply IH. intros y Hy. apply Hbefore. by apply list_elem_of_further.
Qed.

Lemma find_none {A : Type} (p : A → bool) (l : list A) :
  (∀ y, y ∈ l → p y = false) → List.find p l = None.
Proof.
  intros Hl. induction l as [|b l IH]; simpl; [done|].
  rewrite (Hl b) by apply list_elem_of_here.
  apply IH. intros y Hy. apply Hl. by apply list_elem_of_further.
Qed.

(** C5: the genre is the genre of the first food item, in the order of the
    nested iteration over the genres and over the food items of each, that
    occurs in the text, and the empty string when no food item occurs.
    With the dictionary of ラーメン屋 with the food ラーメン and the text
    ラーメンを食べたい it is ラーメン屋. *)
Theorem extract_genre_first_match (self : AttributeExtractor.t) (text : str) :
  (∀ before after g food,
      genre_pairs (AttributeExtractor.__genres self) = before ++ (g, food) :: after →
      (∀ gf, gf ∈ before → ¬ occurs_in gf.2 text) →
      occurs_in food text →
      AttributeExtractor.__extract_genre self text = g)
  ∧ ((∀ gf, gf ∈ genre_pairs (AttributeExtractor.__genres self) → ¬ occurs_in gf.2 text) →
     AttributeExtractor.__extract_genre self text = [])
  ∧ (∀ locations,
       AttributeExtractor.__extract_genre
         {| AttributeExtractor.__locations := locations;
            AttributeExtractor.__genres := [(u "ラーメン屋", [u "ラーメン"])] |}
         (u "ラーメンを食べたい")
       = u "ラーメン屋").
Proof.
  unfold AttributeExtractor.__extract_genre. rewrite genres_loop_spec.
  split; [|split; [|done]].
  - intros before after g food -> Hbefore Hfood.
    rewrite (find_first _ before after (g, food)); [done| |].
    + intros gf Hgf. apply not_true_is_false. rewrite contains_occurs. by apply Hbefore.
    + by apply contains_occurs.
  - intros Hnone. rewrite find_none; [done|].
    intros gf Hgf. apply not_true_is_false. rewrite contains_occurs. by apply Hnone.
Qed.

Lemma extract_genre_first_match_witness :
  AttributeExtractor.__extract_genre
    {| AttributeExtractor.__locations := [];
       AttributeExtractor.__genres :=
         [(u "寿司屋", [u "寿司"; u "刺身"]); (u "ラーメン屋", [u "つけ麺"; u "ラーメン"]);
          (u "中華", [u "ラーメン"])] |}
    (u "ラーメンを食べたい")
  = u "ラーメン屋".
Proof.
  apply (proj1 (extract_genre_first_match
                  {| AttributeExtractor.__locations := [];
                     AttributeExtractor.__genres :=
                       [(u "寿司屋", [u "寿司"; u "刺身"]);
                        (u "ラーメン屋", [u "つけ麺"; u "ラーメン"]);
                        (u "中華", [u "ラーメン"])] |}
                  (u "ラーメンを食べたい"))
           [(u "寿司屋", u "寿司"); (u "寿司屋", u "刺身"); (u "ラーメン屋", u "つけ麺")]
           [(u "中華", u "ラーメン")] (u "ラーメン屋") (u "ラーメン")).
  - reflexivity.
  - intros gf Hgf Hocc. apply contains_occurs in Hocc.
    repeat (apply elem_of_cons in Hgf as [-> | Hgf]; [discriminate Hocc|]).
    by apply elem_of_nil in Hgf.
  - exists [], (u "を食べたい"). reflexivity.
Defined.

(** C6: the mapping that [extract] returns has the three keys LOCATION,
    GENRE and MAXIMUM_AMOUNT and no other, and under each key stands what
    the sub-extractor of that key returns on the same text. *)
Theorem extract_three_keys `{UnicodeDecimal} `{NumeralConversion}
    (self : AttributeExtractor.t) (text : str) :
  dom (AttributeExtractor.extract self text)
  = ({[ u "LOCATION"; u "GENRE"; u "MAXIMUM_AMOUNT" ]} : gset str)
  ∧ AttributeExtractor.extract self text !! u "LOCATION"
    = Some (PyStr (AttributeExtractor.__extract_location self text))
  ∧ AttributeExtractor.extract self text !! u "GENRE"
    = Some (PyStr (AttributeExtractor.__extract_genre self text))
  ∧ AttributeExtractor.extract self text !! u "MAXIMUM_AMOUNT"
    = Some (AttributeExtractor.__extract_budget text).
Proof.
  unfold AttributeExtractor.extract.
  assert (u "LOCATION" ≠ u "GENRE") as H1 by discriminate.
  assert (u "LOCATION" ≠ u "MAXIMUM_AMOUNT") as H2 by discriminate.
  assert (u "GENRE" ≠ u "MAXIMUM_AMOUNT") as H3 by discriminate.
  split; [|split; [|split]].
  - rewrite !dom_insert_L, dom_empty_L. set_solver.
  - rewrite !lookup_insert_ne by done. apply lookup_insert_eq.
  - rewrite lookup_insert_ne by done. apply lookup_insert_eq.
  - apply lookup_insert_eq.
Qed.

(** ** AttributeExtractor.__extract_budget *)

Lemma match_plus_yen_sound (C : char → bool) (s : str) (n : nat) :
  match_plus_yen C s = Some n →
  ∃ ns post, s = ns ++ yen :: post ∧ ns ≠ [] ∧ Forall (λ c, C c = true) ns
             ∧ n = S (length ns).
Proof.
  revert n. induction s as [|c s IH]; intros n; simpl; [done|].
  destruct (C c) eqn:Hc; [|done].
  destruct (match_plus_yen C s) as [k|].
  - intros [= <-]. destruct (IH k eq_refl) as (ns & post & -> & Hne & Hall & ->).
    exists (c :: ns), post. split; [done|]. split; [done|]. split; [|done].
    by constructor.
  - destruct s as [|d s]; [done|]. destruct (d =? yen)%N eqn:Hd; [|done].
    apply N.eqb_eq in Hd as ->. intros [= <-].
    exists [c], s. split; [done|]. split; [done|]. split; [|done].
    by constructor.
Qed.

Lemma match_plus_yen_cons (C : char → bool) (c : char) (s : str) :
  match_plus_yen C (c :: s)
  = if C c then
      match match_plus_yen C s with
      | Some n => Some (S n)
      | None =>
          match s with
          | d :: _ => if (d =? yen)%N then Some 2 else None
          | [] => None
          end
      end
    else None.
Proof. done. Qed.

Lemma match_plus_yen_complete (C : char → bool) (ns post : str) :
  ns ≠ [] → Forall (λ c, C c = true) ns →
  is_Some (match_plus_yen C (ns ++ yen :: post)).
Proof.
  intros Hne Hall. induction Hall as [|c ns Hc Hall IH]; [done|].
  change ((c :: ns) ++ yen :: post) with (c :: (ns ++ yen :: post)).
  rewrite match_plus_yen_cons, Hc. destruct ns as [|c' ns].
  - change ([] ++ yen :: post) with (yen :: post).
    destruct (match_plus_yen C (yen :: post)); [by eexists|].
    rewrite N.eqb_refl. by eexists.
  - destruct IH as [k Hk]; [done|]. rewrite Hk. by eexists.
Qed.

(** The matcher finds a match at the head of [s] exactly when there is
    one. *)
Lemma pattern_at_matches `{UnicodeDecimal} (s : str) :
  is_Some (pattern_at s) ↔ matches_at s.
Proof.
  unfold pattern_at, matches_at, is_budget_match. split.
  - intros [n Hn].
    destruct (match_plus_yen is_decimal s) as [k|] eqn:Hd.
    + apply match_plus_yen_sound in Hd as (ns & post & -> & Hne & Hall & _).
      exists (ns ++ [yen]), post. split; [|by rewrite <- app_assoc].
      exists ns. by auto.
    + apply match_plus_yen_sound in Hn as (ns & post & -> & Hne & Hall & _).
      exists (ns ++ [yen]), post. split; [|by rewrite <- app_assoc].
      exists ns. by auto.
  - intros (m & post & (ns & Hne & Hcls & ->) & ->).
    rewrite <- app_assoc. simpl.
    destruct Hcls as [Hall | Hall].
    + destruct (match_plus_yen_complete is_decimal ns post Hne Hall) as [k ->].
      by eexists.
    + destruct (match_plus_yen is_decimal (ns ++ yen :: post)); [by eexists|].
      by apply match_plus_yen_complete.
Qed.

(** What the matcher finds at the head of [s] is a match. *)
Lemma pattern_at_take `{UnicodeDecimal} (s : str) (n : nat) :
  pattern_at s = Some n →
  ∃ ns post, s = ns ++ yen :: post ∧ is_budget_match (ns ++ [yen])
             ∧ take n s = ns ++ [yen].
Proof.
  unfold pattern_at, is_budget_match. intros Hn.
  destruct (match_plus_yen is_decimal s) as [k|] eqn:Hd.
  - injection Hn as ->.
    apply match_plus_yen_sound in Hd as (ns & post & -> & Hne & Hall & ->).
    exists ns, post. split; [done|]. split; [exists ns; by auto|].
    change (ns ++ yen :: post) with (ns ++ [yen] ++ post).
    rewrite app_assoc, take_app_length'; [done|]. rewrite length_app. simpl. lia.
  - apply match_plus_yen_sound in Hn as (ns & post & -> & Hne & Hall & ->).
    exists ns, post. split; [done|]. split; [exists ns; by auto|].
    change (ns ++ yen :: post) with (ns ++ [yen] ++ post).
    rewrite app_assoc, take_app_length'; [done|]. rewrite length_app. simpl. lia.
Qed.

Lemma findall_no_match `{UnicodeDecimal} (text : str) :
  (∀ pre s, text = pre ++ s → ¬ matches_at s) → findall text = [].
Proof.
  unfold findall. induction text as [|c text IH]; intros Hnone; [done|].
  simpl. destruct (pattern_at (c :: text)) as [n|] eqn:Hp.
  - destruct (Hnone [] (c :: text) eq_refl). apply pattern_at_matches. by eexists.
  - apply IH. intros pre s -> Hs. by apply (Hnone (c :: pre) s).
Qed.

(** The first element of [findall] is the match at the leftmost position
    where a match starts. *)
Lemma findall_first `{UnicodeDecimal} (pre s : str) :
  matches_at s →
  (∀ pre1 s1, pre ++ s = pre1 ++ s1 → length pre1 < length pre → ¬ matches_at s1) →
  ∃ n, pattern_at s = Some n ∧ head (findall (pre ++ s)) = Some (take n s).
Proof.
  unfold findall. intros Hs Hleft. induction pre as [|c pre IH]; simpl.
  - apply pattern_at_matches in Hs as [n Hn]. exists n. split; [done|].
    destruct s as [|c s]; [done|]. simpl. by rewrite Hn.
  - destruct (pattern_at (c :: pre ++ s)) as [n|] eqn:Hp.
    + destruct (Hleft [] (c :: pre ++ s) eq_refl); [simpl; lia|].
      apply pattern_at_matches. by eexists.
    + apply IH. intros pre1 s1 Heq Hlen.
      apply (Hleft (c :: pre1) s1); [simpl; congruence | simpl; lia].
Qed.

(** No match starts in [text] when the matcher finds none at any
    position. *)
Lemma no_match_by_positions `{UnicodeDecimal} (text : str) :
  Forall (λ k, pattern_at (drop k text) = None) (seq 0 (S (length text))) →
  ∀ pre s, text = pre ++ s → ¬ matches_at s.
Proof.
  intros Hall pre s -> Hs. apply pattern_at_matches in Hs as [n Hn].
  rewrite Forall_forall in Hall. specialize (Hall (length pre)).
  rewrite drop_app_length, Hn in Hall. discriminate Hall.
  apply elem_of_seq. rewrite length_app. lia.
Qed.

Lemma drop_last_snoc (ns : str) (c : char) : drop_last (ns ++ [c]) = ns.
Proof.
  unfold drop_last. rewrite length_app. simpl.
  rewrite take_app_length'; [done | lia].
Qed.

(** ** Orders and sorting *)

Section StrictOrder.
Context {A : Type} (lt : A → A → bool).
Hypothesis lt_irrefl : ∀ a, lt a a = false.
Hypothesis lt_trans : ∀ a b c, lt a b = true → lt b c = true → lt a c = true.
Hypothesis lt_total : ∀ a b, lt a b = false → lt b a = false → a = b.

Lemma lt_asym (a b : A) : lt a b = true → lt b a = false.
Proof.
  intros Hab. destruct (lt b a) eqn:Hba; [|done].
  by rewrite <- (lt_irrefl a), (lt_trans a b a Hab Hba).
Qed.

Lemma lt_neg_trans (a b c : A) : lt a b = false → lt b c = false → lt a c = false.
Proof.
  intros Hab Hbc. destruct (lt a c) eqn:Hac; [|done].
  destruct (lt b a) eqn:Hba.
  - by rewrite <- Hbc, (lt_trans b a c Hba Hac).
  - rewrite (lt_total a b Hab Hba) in Hac. congruence.
Qed.

Lemma lex_ltb_irrefl (l : list A) : lex_ltb lt l l = false.
Proof. induction l as [|a l IH]; simpl; [done|]. by rewrite lt_irrefl, IH. Qed.

Lemma lex_ltb_trans (l1 l2 l3 : list A) :
  lex_ltb lt l1 l2 = true → lex_ltb lt l2 l3 = true → lex_ltb lt l1 l3 = true.
Proof.
  revert l2 l3. induction l1 as [|a l1 IH]; intros [|b l2] [|c l3]; simpl; try done.
  intros [Hab | [Hba H12]%andb_true_iff]%orb_true_iff
         [Hbc | [Hcb H23]%andb_true_iff]%orb_true_iff; apply orb_true_iff.
  - left. by apply (lt_trans a b c).
  - apply negb_true_iff in Hcb.
    destruct (lt b c) eqn:Hbc; [left; by apply (lt_trans a b c)|].
    rewrite <- (lt_total b c Hbc Hcb). by left.
  - apply negb_true_iff in Hba.
    destruct (lt a b) eqn:Hab; [left; by apply (lt_trans a b c)|].
    rewrite (lt_total a b Hab Hba). by left.
  - apply negb_true_iff in Hba, Hcb.
    destruct (lt a c) eqn:Hac; [by left|]. right.
    rewrite (lt_neg_trans c b a Hcb Hba). simpl. by apply (IH l2).
Qed.

Lemma lex_ltb_total (l1 l2 : list A) :
  lex_ltb lt l1 l2 = false → lex_ltb lt l2 l1 = false → l1 = l2.
Proof.
  revert l2. induction l1 as [|a l1 IH]; intros [|b l2]; simpl; try done.
  intros [Hab H12]%orb_false_iff [Hba H21]%orb_false_iff.
  rewrite Hba in H12. rewrite Hab in H21. simpl in *.
  by rewrite (lt_total a b Hab Hba), (IH l2 H12 H21).
Qed.

End StrictOrder.

Lemma str_ltb_irrefl (s : str) : str_ltb s s = false.
Proof. unfold str_ltb. apply lex_ltb_irrefl. apply N.ltb_irrefl. Qed.

Lemma str_ltb_trans (a b c : str) :
  str_ltb a b = true → str_ltb b c = true → str_ltb a c = true.
Proof.
  unfold str_ltb. apply lex_ltb_trans.
  - intros x y z Hxy%N.ltb_lt Hyz%N.ltb_lt. apply N.ltb_lt. lia.
  - intros x y Hxy%N.ltb_ge Hyx%N.ltb_ge. lia.
Qed.

Lemma str_ltb_total (a b : str) : str_ltb a b = false → str_ltb b a = false → a = b.
Proof.
  unfold str_ltb. apply lex_ltb_total. intros x y Hxy%N.ltb_ge Hyx%N.ltb_ge. lia.
Qed.

Section StableSort.
Context {A K : Type} (key : A → K) (lt : K → K → bool).
Hypothesis lt_irrefl : ∀ a, lt a a = false.
Hypothesis lt_trans : ∀ a b c, lt a b = true → lt b c = true → lt a c = true.
Hypothesis lt_total : ∀ a b, lt a b = false → lt b a = false → a = b.

Let before (y x : A) : bool := lt (key y) (key x).

Lemma insert_sorted_perm (x : A) (l : list A) : insert_sorted before x l ≡ₚ x :: l.
Proof.
  induction l as [|y l IH]; simpl; [done|].
  destruct (before y x); [|done]. rewrite IH. apply Permutation_swap.
Qed.

Lemma stable_sort_perm (l : list A) : stable_sort before l ≡ₚ l.
Proof.
  induction l as [|x l IH]; simpl; [done|].
  unfold stable_sort in *. simpl. by rewrite insert_sorted_perm, IH.
Qed.

Lemma insert_sorted_sorted (x : A) (l : list A) :
  StronglySorted (λ a b, before b a = false) l →
  StronglySorted (λ a b, before b a = false) (insert_sorted before x l).
Proof.
  induction 1 as [|y l Hl IH Hy]; simpl.
  - by repeat constructor.
  - destruct (before y x) eqn:Hyx.
    + constructor; [done|]. rewrite insert_sorted_perm. constructor; [|done].
      by apply (lt_asym lt lt_irrefl lt_trans).
    + constructor; [by constructor|]. constructor; [done|].
      rewrite Forall_forall in Hy |- *. intros z Hz.
      apply (lt_neg_trans lt lt_trans lt_total (key z) (key y) (key x)); [by apply Hy | done].
Qed.

(** The result of the sort is in order: no element has to come before an
    element that stands before it. *)
Lemma stable_sort_sorted (l : list A) :
  StronglySorted (λ a b, before b a = false) (stable_sort before l).
Proof.
  induction l as [|x l IH]; [constructor|].
  unfold stable_sort in *. simpl. by apply insert_sorted_sorted.
Qed.

End StableSort.

Lemma StronglySorted_lookup_lt {A : Type} (R : A → A → Prop) (l : list A)
    (i j : nat) (a b : A) :
  StronglySorted R l → i < j → l !! i = Some a → l !! j = Some b → R a b.
Proof.
  intros Hl. revert i j. induction Hl as [|x l Hl IH Hx]; intros i j Hij Ha Hb; [done|].
  destruct j as [|j]; [lia|]. simpl in Hb. destruct i as [|i].
  - injection Ha as ->. rewrite Forall_forall in Hx.
    apply Hx. by eapply list_elem_of_lookup_2.
  - simpl in Ha. apply (IH i j); [lia | done | done].
Qed.

(** ** NamedEntityExtractor.evaluate *)

(** [split1] cuts at the first separator: one piece without separator, or
    two pieces, the first without separator. *)
Lemma split1_spec (sep : char) (s : str) :
  (split1 sep s = [s] ∧ sep ∉ s)
  ∨ ∃ w r, split1 sep s = [w; r] ∧ s = w ++ sep :: r ∧ sep ∉ w.
Proof.
  induction s as [|c s IH]; simpl.
  - left. split; [done|]. apply not_elem_of_nil.
  - destruct (c =? sep)%N eqn:Hc.
    + apply N.eqb_eq in Hc as ->. right. exists [], s.
      split; [done|]. split; [done|]. apply not_elem_of_nil.
    + apply N.eqb_neq in Hc.
      destruct IH as [[-> Hs] | (w & r & -> & -> & Hw)].
      * left. split; [done|]. by intros [?|?]%elem_of_cons.
      * right. exists (c :: w), r. split; [done|]. split; [done|].
        by intros [?|?]%elem_of_cons.
Qed.

Lemma split1_prefixed (sep : char) (p ty : str) :
  sep ∉ p → split1 sep (p ++ sep :: ty) = [p; ty].
Proof.
  induction p as [|c p IH]; intros Hp; simpl.
  - by rewrite N.eqb_refl.
  - apply not_elem_of_cons in Hp as [Hc Hp]. apply not_eq_sym, N.eqb_neq in Hc.
    by rewrite Hc, IH.
Qed.

Lemma split1_inj (sep : char) (a b : str) : split1 sep a = split1 sep b → a = b.
Proof.
  intros Heq.
  destruct (split1_spec sep a) as [[Ha _] | (wa & ra & Ha & -> & _)];
    destruct (split1_spec sep b) as [[Hb _] | (wb & rb & Hb & -> & _)];
    rewrite Ha, Hb in Heq; by simplify_eq.
Qed.

Lemma sort_key_inj (a b : str) : sort_key a = sort_key b → a = b.
Proof.
  unfold sort_key. intros Heq. apply (split1_inj hyphen).
  apply (inj reverse) in Heq. done.
Qed.

(** The key of a label [prefix-TYPE] is the pair of its type and its
    prefix. *)
Lemma sort_key_prefixed (p ty : str) :
  hyphen ∉ p → sort_key (p ++ hyphen :: ty) = [ty; p].
Proof. intros Hp. unfold sort_key. by rewrite split1_prefixed. Qed.

Lemma key_before_irrefl (ks : list str) : lex_ltb str_ltb ks ks = false.
Proof. apply lex_ltb_irrefl, str_ltb_irrefl. Qed.

Lemma key_before_trans (k1 k2 k3 : list str) :
  lex_ltb str_ltb k1 k2 = true → lex_ltb str_ltb k2 k3 = true →
  lex_ltb str_ltb k1 k3 = true.
Proof. apply lex_ltb_trans; [apply str_ltb_trans | apply str_ltb_total]. Qed.

Lemma key_before_total (k1 k2 : list str) :
  lex_ltb str_ltb k1 k2 = false → lex_ltb str_ltb k2 k1 = false → k1 = k2.
Proof. apply lex_ltb_total, str_ltb_total. Qed.

Lemma elem_of_classes_ (y_true : list (list str)) (tag : str) :
  tag ∈ classes_ y_true ↔ tag ∈ concat y_true.
Proof.
  unfold classes_.
  rewrite (stable_sort_perm id str_ltb (remove_dups (concat y_true))).
  apply elem_of_remove_dups.
Qed.

(** C7: the labels of the report are the labels of the gold sequences
    other than [O], each once, in strictly ascending order of the key
    [tag.split('-', 1)[::-1]]; for labels of the form prefix-TYPE that is
    the order of the pairs (TYPE, prefix), so labels are grouped by type
    and, within a type, ordered by prefix. The predicted sequences do not
    change the labels. *)
Theorem tagset_sorted_by_type (y_true y_pred : list (list str)) :
  (∀ tag, tag ∈ tagset y_true y_pred ↔ tag ∈ concat y_true ∧ tag ≠ u "O")
  ∧ NoDup (tagset y_true y_pred)
  ∧ (∀ i j a b,
       i < j →
       tagset y_true y_pred !! i = Some a →
       tagset y_true y_pred !! j = Some b →
       key_before a b = true)
  ∧ (∀ pa ta pb tb,
       hyphen ∉ pa → hyphen ∉ pb →
       key_before (pa ++ hyphen :: ta) (pb ++ hyphen :: tb) = true
       ↔ str_ltb ta tb = true ∨ (ta = tb ∧ str_ltb pa pb = true))
  ∧ tagset [[u "B-LOC"; u "I-LOC"; u "O"; u "I-GENRE"]; [u "O"; u "B-GENRE"]] y_pred
    = [u "B-GENRE"; u "I-GENRE"; u "B-LOC"; u "I-LOC"].
Proof.
  unfold tagset.
  set (tags := elements (list_to_set (classes_ y_true) ∖ {[u "O"]} : gset str)).
  pose proof (stable_sort_perm sort_key (lex_ltb str_ltb) tags) as Hperm.
  pose proof (stable_sort_sorted sort_key (lex_ltb str_ltb)
                key_before_irrefl key_before_trans key_before_total tags) as Hsorted.
  change (λ y x, lex_ltb str_ltb (sort_key y) (sort_key x)) with key_before in Hperm, Hsorted.
  assert (NoDup (stable_sort key_before tags)) as Hnodup.
  { rewrite Hperm. apply NoDup_elements. }
  split; [|split; [done|split; [|split]]].
  - intros tag. rewrite Hperm. unfold tags.
    rewrite elem_of_elements, elem_of_difference, elem_of_list_to_set, elem_of_classes_.
    by rewrite elem_of_singleton.
  - intros i j a b Hij Ha Hb.
    pose proof (StronglySorted_lookup_lt _ _ i j a b Hsorted Hij Ha Hb) as Hba.
    simpl in Hba.
    destruct (key_before a b) eqn:Hab; [done|]. exfalso.
    assert (a = b) as ->.
    { apply sort_key_inj. by apply key_before_total. }
    pose proof (NoDup_lookup _ i j b Hnodup Ha Hb). lia.
  - intros pa ta pb tb Hpa Hpb. unfold key_before.
    rewrite !sort_key_prefixed by done. cbn [lex_ltb].
    rewrite andb_false_r, orb_false_r, orb_true_iff, andb_true_iff, negb_true_iff.
    split.
    + intros [Ht | [Hba Hp]]; [by left|].
      destruct (str_ltb ta tb) eqn:Hab; [by left|]. right.
      split; [by apply str_ltb_total | done].
    + intros [Ht | [-> Hp]]; [by left|]. right.
      by rewrite str_ltb_irrefl.
  - by vm_compute.
Qed.

(** * Further properties of the code *)

(** ** More on the scan: which runs return and which raise *)

(** The run of [I] labels from index [s]: its labels start with [I], and
    the label after it, if any, does not. *)
Lemma run_len_lookup (labels : list str) (s : nat) :
  (∀ j, j < run_len (drop s labels) →
        ∃ l, labels !! (s + j) = Some l ∧ startswith l (u "I") = true)
  ∧ (∀ l, labels !! (s + run_len (drop s labels)) = Some l →
          startswith l (u "I") = false).
Proof.
  remember (drop s labels) as rest eqn:Hrest. revert s Hrest.
  induction rest as [|r rest IH]; intros s Hrest; simpl.
  - split; [intros j Hj; lia|]. intros l Hl. rewrite Nat.add_0_r in Hl.
    apply (f_equal (λ x, x !! 0)) in Hrest. rewrite lookup_drop, Nat.add_0_r, Hl in Hrest.
    done.
  - assert (labels !! s = Some r) as Hr.
    { apply (f_equal (λ x, x !! 0)) in Hrest.
      by rewrite lookup_drop, Nat.add_0_r in Hrest. }
    assert (rest = drop (S s) labels) as Hrest'.
    { rewrite (drop_S _ _ _ Hr) in Hrest. by injection Hrest. }
    destruct (startswith r (u "I")) eqn:HI.
    + destruct (IH (S s) Hrest') as [IH1 IH2]. split.
      * intros [|j] Hj.
        -- exists r. by rewrite Nat.add_0_r.
        -- destruct (IH1 j ltac:(lia)) as (l & Hl & HlI). exists l.
           split; [|done]. by replace (s + S j) with (S s + j) by lia.
      * intros l Hl. apply IH2. by replace (S s + run_len rest) with (s + S (run_len rest)) by lia.
    + split; [intros j Hj; lia|]. intros l Hl. rewrite Nat.add_0_r in Hl. congruence.
Qed.

(** The positions of the run after a position of a span belong to the
    span. *)
Lemma in_span_run (labels : list str) (i : nat) :
  in_span labels i = true →
  ∀ j, j ≤ run_len (drop (S i) labels) → in_span labels (i + j) = true.
Proof.
  intros Hi. induction j as [|j IH]; intros Hj.
  - by rewrite Nat.add_0_r.
  - destruct (proj1 (run_len_lookup labels (S i)) j ltac:(lia)) as (l & Hl & HI).
    replace (i + S j) with (S (i + j)) by lia.
    replace (S i + j) with (S (i + j)) in Hl by lia.
    rewrite in_span_unfold, Hl, HI, IH by lia. by rewrite orb_true_r.
Qed.

(** The label and the surface form that [run_last] gives are those at the
    last index of the run. *)
Lemma run_last_lookup {F : Type} (labels : list str) (sent : list (token F)) (i : nat)
    (l : str) (tok : token F) :
  labels !! i = Some l →
  sent !! i = Some tok →
  i + run_len (drop (S i) labels) < length sent →
  ∃ tok',
    labels !! (i + run_len (drop (S i) labels))
    = Some (run_last (drop (S i) labels) (drop (S i) sent) l tok.1).1
    ∧ sent !! (i + run_len (drop (S i) labels)) = Some tok'
    ∧ (run_last (drop (S i) labels) (drop (S i) sent) l tok.1).2 = tok'.1.
Proof.
  remember (drop (S i) labels) as rest eqn:Hrest. revert i l tok Hrest.
  induction rest as [|r rest IH]; intros i l tok Hrest Hl Htok Hlen; simpl.
  - rewrite Nat.add_0_r. by exists tok.
  - assert (labels !! S i = Some r) as Hr.
    { apply (f_equal (λ x, x !! 0)) in Hrest.
      by rewrite lookup_drop, Nat.add_0_r in Hrest. }
    assert (rest = drop (S (S i)) labels) as Hrest'.
    { rewrite (drop_S _ _ _ Hr) in Hrest. by injection Hrest. }
    simpl in Hlen. destruct (startswith r (u "I")) eqn:HI.
    + destruct (lookup_lt_is_Some_2 sent (S i)) as [tok1 Htok1]; [lia|].
      rewrite (drop_S _ _ _ Htok1).
      destruct (IH (S i) r tok1 Hrest' Hr Htok1 ltac:(lia)) as (tok' & H1 & H2 & H3).
      exists tok'. replace (i + S (run_len rest)) with (S i + run_len rest) by lia.
      simpl. done.
    + rewrite Nat.add_0_r. exists tok.
      destruct (drop (S i) sent); done.
Qed.

(** The inner loop returns when there is a token for every label of the
    run, and raises [IndexError] when there is not. *)
Lemma inner_while_outcome {F : Type} (pred_y : list str) (sent : list (token F)) :
  ∀ fuel i l0 w0 tr,
    length pred_y - i < fuel →
    i ≤ length sent →
    (i + run_len (drop i pred_y) ≤ length sent →
     (inner_while fuel pred_y sent i [w0] [l0] tr).1
     = Ok (i + run_len (drop i pred_y),
           [(run_last (drop i pred_y) (drop i sent) l0 w0).2],
           [(run_last (drop i pred_y) (drop i sent) l0 w0).1]))
    ∧ (length sent < i + run_len (drop i pred_y) →
       (inner_while fuel pred_y sent i [w0] [l0] tr).1 = Raise IndexError).
Proof.
  induction fuel as [|fuel IH]; intros i l0 w0 tr Hfuel Hsent; [lia|].
  simpl. destruct (pred_y !! i) as [l|] eqn:Hl.
  - rewrite (drop_S _ _ _ Hl). simpl.
    pose proof (lookup_lt_Some _ _ _ Hl) as Hi.
    destruct (startswith l (u "I")) eqn:HI.
    + rewrite bind_eq. unfold emit. cbn beta iota. rewrite bind_eq.
      destruct (sent !! i) as [tok|] eqn:Htok.
      * rewrite (getitem_Some _ _ _ _ Htok), (drop_S _ _ _ Htok). simpl.
        pose proof (lookup_lt_Some _ _ _ Htok) as Hi'.
        destruct (IH (S i) l tok.1 (tr ++ [Overwrite i]) ltac:(lia) ltac:(lia))
          as [IH1 IH2].
        split; intros Hk.
        -- rewrite IH1 by lia. do 2 f_equal. f_equal. lia.
        -- apply IH2. lia.
      * rewrite (getitem_None _ _ _ Htok). apply lookup_ge_None in Htok.
        split; intros Hk; [lia | done].
    + split; intros Hk; [|lia]. unfold mret, M_ret. simpl.
      rewrite Nat.add_0_r. by destruct (drop i sent).
  - rewrite (drop_ge pred_y i) by (by apply lookup_ge_None). simpl.
    split; intros Hk; [|lia].
    unfold mret, M_ret. simpl. by rewrite Nat.add_0_r.
Qed.

Lemma inner_while_raises {F : Type} (pred_y : list str) (sent : list (token F)) :
  ∀ fuel i ws ls tr e,
    (inner_while fuel pred_y sent i ws ls tr).1 = Raise e → e = IndexError.
Proof.
  induction fuel as [|fuel IH]; intros i ws ls tr e; simpl; [done|].
  destruct (pred_y !! i) as [l|]; [|done].
  destruct (startswith l (u "I")); [|done].
  rewrite bind_eq. unfold emit. cbn beta iota. rewrite bind_eq.
  destruct (sent !! i) as [tok|] eqn:Htok.
  - rewrite (getitem_Some _ _ _ _ Htok). apply IH.
  - rewrite (getitem_None _ _ _ Htok). by intros [= <-].
Qed.

Lemma close_span_raises (ws ls : list str) (res : list span) (tr : list event) (e : exn) :
  (close_span ws ls res tr).1 = Raise e → e = IndexError.
Proof.
  unfold close_span. rewrite bind_eq.
  assert (∀ e, (mapM (M:=M) (λ l, getitem (split hyphen l) 1) ls tr).1 = Raise e
               → e = IndexError) as Hmap.
  { clear. induction ls as [|l ls IH]; intros e; simpl; [done|].
    rewrite bind_eq. destruct (split hyphen l !! 1) as [ty|] eqn:Hty.
    - rewrite (getitem_Some _ _ _ _ Hty), bind_eq.
      destruct (mapM (M:=M) (λ l, getitem (split hyphen l) 1) ls tr) as [[tys|e'|] tr'];
        simpl in *; [done | | done].
      intros [= <-]. by apply IH.
    - rewrite (getitem_None _ _ _ Hty). by intros [= <-]. }
  destruct (mapM (M:=M) (λ l, getitem (split hyphen l) 1) ls tr) as [[tys|e'|] tr'];
    simpl in *; [done | | done].
  intros [= <-]. by apply Hmap.
Qed.

Lemma outer_while_raises {F : Type} (pred_y : list str) (sent : list (token F)) :
  ∀ fuel i res tr e,
    (outer_while fuel pred_y sent i res tr).1 = Raise e → e = IndexError.
Proof.
  induction fuel as [|fuel IH]; intros i res tr e; simpl; [done|].
  destruct (pred_y !! i) as [l|]; [|done].
  destruct (startswith l (u "B")).
  - rewrite bind_eq. unfold emit. cbn beta iota. rewrite bind_eq.
    destruct (sent !! i) as [tok|] eqn:Htok.
    2:{ rewrite (getitem_None _ _ _ Htok). by intros [= <-]. }
    rewrite (getitem_Some _ _ _ _ Htok), bind_eq.
    pose proof (inner_while_raises pred_y sent fuel (S i) [tok.1] [l] (tr ++ [Open i])) as Hin.
    destruct (inner_while fuel pred_y sent (S i) [tok.1] [l] (tr ++ [Open i]))
      as [[[[i' ws] ls]|e'|] tr1]; simpl in Hin; [| |done].
    2:{ intros [= <-]. by apply Hin. }
    rewrite bind_eq.
    pose proof (close_span_raises ws ls res tr1) as Hc.
    destruct (close_span ws ls res tr1) as [[res'|e'|] tr2]; simpl in Hc; [| |done].
    2:{ intros [= <-]. by apply Hc. }
    apply IH.
  - rewrite bind_eq. unfold emit. cbn beta iota. apply IH.
Qed.

Lemma in_span_head (labels : list str) (i : nat) (l : str) :
  no_open_run labels i → labels !! i = Some l →
  in_span labels i = startswith l (u "B").
Proof.
  intros Hno Hl. rewrite in_span_unfold, Hl.
  destruct (startswith l (u "B")); [done|]. simpl.
  destruct (startswith l (u "I")) eqn:HI; [|done]. simpl.
  destruct i as [|j]; [done|]. simpl in Hno.
  destruct (in_span labels j); [|done]. by rewrite (Hno eq_refl l Hl) in HI.
Qed.

Lemma in_span_ge (labels : list str) (i : nat) :
  length labels ≤ i → in_span labels i = false.
Proof. intros Hi. by rewrite in_span_unfold, (proj2 (lookup_ge_None _ _) Hi). Qed.

(** The outer loop from an index where no span is open returns the spans
    of the spec when every position of a span from there on has a token
    and every last position of a span from there on has a label with a
    type. *)
Lemma outer_while_ok {F : Type} (pred_y : list str) (sent : list (token F)) :
  ∀ fuel i res tr,
    length pred_y - i < fuel →
    no_open_run pred_y i →
    (∀ j, i ≤ j → in_span pred_y j = true → j < length sent) →
    (∀ e l, i ≤ e → pred_y !! e = Some l → closing pred_y e →
            is_Some (split hyphen l !! 1)) →
    (outer_while fuel pred_y sent i res tr).1
    = Ok (res ++ spans_spec (drop i pred_y) (drop i sent)).
Proof.
  induction fuel as [|fuel IH]; intros i res tr Hfuel Hno Hread Hclose; [lia|].
  simpl. destruct (pred_y !! i) as [l|] eqn:Hl.
  2:{ rewrite (drop_ge pred_y i) by (by apply lookup_ge_None). simpl.
      by rewrite app_nil_r. }
  rewrite (drop_S _ _ _ Hl).
  pose proof (lookup_lt_Some _ _ _ Hl) as Hi.
  pose proof (in_span_head pred_y i l Hno Hl) as Hspan.
  destruct (startswith l (u "B")) eqn:HB.
  - pose proof (in_span_run pred_y i Hspan) as Hrun.
    set (k := run_len (drop (S i) pred_y)) in *.
    assert (i + k < length sent) as Hk by (apply Hread; [lia | by apply Hrun]).
    destruct (lookup_lt_is_Some_2 sent i) as [tok Htok]; [lia|].
    rewrite (drop_S _ _ _ Htok). simpl. rewrite HB.
    rewrite bind_eq. unfold emit. cbn beta iota.
    rewrite bind_eq, (getitem_Some _ _ _ _ Htok), bind_eq.
    pose proof (proj1 (inner_while_outcome pred_y sent fuel (S i) l tok.1 (tr ++ [Open i])
                         ltac:(lia) ltac:(lia)) ltac:(fold k; lia)) as Hin.
    destruct (inner_while fuel pred_y sent (S i) [tok.1] [l] (tr ++ [Open i])) as [r1 tr1].
    simpl in Hin. rewrite Hin. clear Hin. fold k.
    destruct (run_last_lookup pred_y sent i l tok Hl Htok ltac:(fold k; lia))
      as (tok' & Hll & Htok' & Hlw). fold k in Hll, Htok'.
    set (ll := (run_last (drop (S i) pred_y) (drop (S i) sent) l tok.1).1) in *.
    set (lw := (run_last (drop (S i) pred_y) (drop (S i) sent) l tok.1).2) in *.
    assert (∀ l', pred_y !! S (i + k) = Some l' → startswith l' (u "I") = false) as Hnext.
    { intros l' Hl'. apply (proj2 (run_len_lookup pred_y (S i)) l'). by fold k. }
    destruct (Hclose (i + k) ll ltac:(lia) Hll) as [ty Hty].
    { split; [by apply Hrun | done]. }
    rewrite bind_eq, (close_span_single _ _ _ _ _ Hty).
    rewrite IH.
    + unfold type_of. rewrite Hty. rewrite <- app_assoc. simpl.
      rewrite (spans_spec_skip_run (drop (S i) pred_y) (drop (S i) sent)).
      fold k. by rewrite !drop_drop.
    + pose proof (run_len_le (drop (S i) pred_y)) as Hle. fold k in Hle.
      rewrite length_drop in Hle. lia.
    + simpl. intros _ l' Hl'. by apply Hnext.
    + intros j Hj. apply Hread. lia.
    + intros e l' He. apply Hclose. lia.
  - destruct (drop i sent) as [|tok trest] eqn:Hdrop.
    + rewrite bind_eq. unfold emit. cbn beta iota.
      rewrite IH.
      * f_equal. f_equal. simpl.
        assert (drop (S i) sent = []) as ->.
        { apply drop_ge. apply (f_equal length) in Hdrop.
          rewrite length_drop in Hdrop. simpl in Hdrop. lia. }
        by destruct (drop (S i) pred_y).
      * lia.
      * simpl. intros Hin. congruence.
      * intros j Hj. apply Hread. lia.
      * intros e l' He. apply Hclose. lia.
    + rewrite bind_eq. unfold emit. cbn beta iota.
      rewrite IH.
      * f_equal. f_equal. simpl. rewrite HB.
        replace (drop (S i) sent) with trest; [done|].
        replace (S i) with (i + 1) by lia. by rewrite <- drop_drop, Hdrop.
      * lia.
      * simpl. intros Hin. congruence.
      * intros j Hj. apply Hread. lia.
      * intros e l' He. apply Hclose. lia.
Qed.

(** Conversely, when the outer loop returns, every position of a span had
    a token and every last position of a span had a label with a type. *)
Lemma outer_while_ok_inv {F : Type} (pred_y : list str) (sent : list (token F)) :
  ∀ fuel i res tr r,
    length pred_y - i < fuel →
    no_open_run pred_y i →
    (outer_while fuel pred_y sent i res tr).1 = Ok r →
    (∀ j, i ≤ j → in_span pred_y j = true → j < length sent)
    ∧ (∀ e l, i ≤ e → pred_y !! e = Some l → closing pred_y e →
              is_Some (split hyphen l !! 1)).
Proof.
  induction fuel as [|fuel IH]; intros i res tr r Hfuel Hno; [lia|].
  simpl. destruct (pred_y !! i) as [l|] eqn:Hl.
  2:{ intros _. apply lookup_ge_None in Hl. split.
      - intros j Hj Hin. rewrite in_span_ge in Hin by lia. done.
      - intros e l' He Hl' [Hin _]. rewrite in_span_ge in Hin by lia. done. }
  pose proof (lookup_lt_Some _ _ _ Hl) as Hi.
  pose proof (in_span_head pred_y i l Hno Hl) as Hspan.
  destruct (startswith l (u "B")) eqn:HB.
  - pose proof (in_span_run pred_y i Hspan) as Hrun.
    set (k := run_len (drop (S i) pred_y)) in *.
    rewrite bind_eq. unfold emit. cbn beta iota. rewrite bind_eq.
    destruct (sent !! i) as [tok|] eqn:Htok.
    2:{ by rewrite (getitem_None _ _ _ Htok). }
    pose proof (lookup_lt_Some _ _ _ Htok) as Hi'.
    rewrite (getitem_Some _ _ _ _ Htok), bind_eq.
    destruct (inner_while_outcome pred_y sent fuel (S i) l tok.1 (tr ++ [Open i])
                ltac:(lia) ltac:(lia)) as [Hin1 Hin2]. fold k in Hin1, Hin2.
    destruct (decide (S i + k ≤ length sent)) as [Hk|Hk].
    2:{ specialize (Hin2 ltac:(lia)).
        destruct (inner_while fuel pred_y sent (S i) [tok.1] [l] (tr ++ [Open i]))
          as [r1 tr1]. simpl in Hin2. by rewrite Hin2. }
    specialize (Hin1 Hk).
    destruct (inner_while fuel pred_y sent (S i) [tok.1] [l] (tr ++ [Open i])) as [r1 tr1].
    simpl in Hin1. rewrite Hin1. clear Hin1 Hin2.
    destruct (run_last_lookup pred_y sent i l tok Hl Htok ltac:(fold k; lia))
      as (tok' & Hll & Htok' & Hlw). fold k in Hll, Htok'.
    set (ll := (run_last (drop (S i) pred_y) (drop (S i) sent) l tok.1).1) in *.
    set (lw := (run_last (drop (S i) pred_y) (drop (S i) sent) l tok.1).2) in *.
    assert (∀ l', pred_y !! S (i + k) = Some l' → startswith l' (u "I") = false) as Hnext.
    { intros l' Hl'. apply (proj2 (run_len_lookup pred_y (S i)) l'). by fold k. }
    rewrite bind_eq.
    destruct (split hyphen ll !! 1) as [ty|] eqn:Hty.
    2:{ by rewrite (close_span_untyped _ _ _ _ Hty). }
    rewrite (close_span_single _ _ _ _ _ Hty).
    intros Hr. apply IH in Hr as [IH1 IH2].
    + split.
      * intros j Hj Hin. destruct (decide (j ≤ i + k)); [lia|]. apply IH1; [lia | done].
      * intros e l' He Hl' Hcl. destruct (decide (e < i + k)) as [Hlt|Hge].
        -- destruct Hcl as [_ Hcl].
           destruct (proj1 (run_len_lookup pred_y (S i)) (e - i) ltac:(fold k; lia))
             as (l'' & Hl'' & HI).
           replace (S i + (e - i)) with (S e) in Hl'' by lia.
           rewrite (Hcl l'' Hl'') in HI. done.
        -- destruct (decide (e = i + k)) as [->|Hne].
           ++ rewrite Hll in Hl'. injection Hl' as <-. by eexists.
           ++ apply (IH2 e l'); [lia | done | done].
    + pose proof (run_len_le (drop (S i) pred_y)) as Hle. fold k in Hle.
      rewrite length_drop in Hle. lia.
    + simpl. intros _ l' Hl'. by apply Hnext.
  - rewrite bind_eq. unfold emit. cbn beta iota.
    intros Hr. apply IH in Hr as [IH1 IH2]; [|lia|].
    + split.
      * intros j Hj Hin. destruct (decide (j = i)) as [->|Hne]; [congruence|].
        apply IH1; [lia | done].
      * intros e l' He Hl' Hcl. destruct (decide (e = i)) as [->|Hne].
        -- destruct Hcl as [Hin _]. congruence.
        -- apply (IH2 e l'); [lia | done | done].
    + simpl. intros Hin. congruence.
Qed.

(** When the scan returns, it returns the spans of the spec. *)
Lemma merge_spans_ok_spans {F : Type} (pred_y : list str) (sent : list (token F))
    (res : list span) :
  (merge_spans pred_y sent []).1 = Ok res → res = spans_spec pred_y sent.
Proof.
  unfold merge_spans. intros Hres.
  destruct (outer_while_ok_inv pred_y sent (S (length pred_y)) 0 [] [] res ltac:(lia) I Hres)
    as [H1 H2].
  rewrite (outer_while_ok pred_y sent (S (length pred_y)) 0 [] []) in Hres;
    [by injection Hres | lia | done | done | done].
Qed.

(** X1: the scan returns exactly when every position of a span has a
    token and every last position of a span has a label with a type, and
    then it returns the spans of the spec. *)
Theorem merge_spans_returns_iff {F : Type} (pred_y : list str) (sent : list (token F)) :
  ((∃ res, (merge_spans pred_y sent []).1 = Ok res)
   ↔ (∀ i, in_span pred_y i = true → i < length sent)
     ∧ (∀ e l, pred_y !! e = Some l → closing pred_y e → is_Some (split hyphen l !! 1)))
  ∧ (∀ res, (merge_spans pred_y sent []).1 = Ok res → res = spans_spec pred_y sent).
Proof.
  unfold merge_spans.
  assert (∀ res, (outer_while (S (length pred_y)) pred_y sent 0 [] []).1 = Ok res →
                 (∀ i, in_span pred_y i = true → i < length sent)
                 ∧ (∀ e l, pred_y !! e = Some l → closing pred_y e →
                           is_Some (split hyphen l !! 1))) as Hinv.
  { intros res Hres.
    destruct (outer_while_ok_inv pred_y sent (S (length pred_y)) 0 [] [] res ltac:(lia) I Hres)
      as [H1 H2].
    split; [intros i; apply H1; lia | intros e l; apply H2; lia]. }
  assert ((∀ i, in_span pred_y i = true → i < length sent) →
          (∀ e l, pred_y !! e = Some l → closing pred_y e →
                  is_Some (split hyphen l !! 1)) →
          (outer_while (S (length pred_y)) pred_y sent 0 [] []).1
          = Ok (spans_spec pred_y sent)) as Hok.
  { intros H1 H2.
    rewrite (outer_while_ok pred_y sent (S (length pred_y)) 0 [] []); [done | lia | done | |].
    - intros j _. apply H1.
    - intros e l _. apply H2. }
  split; [split|].
  - intros [res Hres]. by apply (Hinv res).
  - intros [H1 H2]. eexists. by apply Hok.
  - intros res Hres. destruct (Hinv res Hres) as [H1 H2].
    rewrite (Hok H1 H2) in Hres. by injection Hres.
Qed.

(** X2: the scan raises nothing but [IndexError], and [extract] raises
    nothing but [IndexError] and what the tagger raises. *)
Theorem extract_raises_IndexError `{CRFSuite} (self : t) (xs : xseq)
    (sent : list (token features)) (e : exn) :
  extract self xs sent = Raise e →
  tagger self xs = Raise e ∨ ((∃ pred_y, tagger self xs = Ok pred_y) ∧ e = IndexError).
Proof.
  unfold extract, tagger.
  destruct (Tagger_tag (__tagger self) xs) as [pred_y|e'|].
  - intros He. right. split; [by eexists|].
    by apply (outer_while_raises pred_y sent _ _ _ _ _ He).
  - intros [= ->]. by left.
  - done.
Qed.

Lemma extract_raises_IndexError_witness :
  @tagger (fake_crf []) fake_trained [u "O"; u "B"] = Raise IndexError
  ∨ ((∃ pred_y, @tagger (fake_crf []) fake_trained [u "O"; u "B"] = Ok pred_y)
     ∧ IndexError = IndexError).
Proof.
  apply (@extract_raises_IndexError (fake_crf []) fake_trained [u "O"; u "B"]
           [(u "千葉", ()); (u "県", ())] IndexError).
  vm_compute. reflexivity.
Defined.

(** What [run_last] gives is the start it was given or the label and the
    surface form at one index of the run. *)
Lemma run_last_elem {F : Type} (labels : list str) (toks : list (token F)) (l0 w0 : str) :
  run_last labels toks l0 w0 = (l0, w0)
  ∨ ∃ j l tok, labels !! j = Some l ∧ toks !! j = Some tok
               ∧ run_last labels toks l0 w0 = (l, tok.1).
Proof.
  revert toks l0 w0. induction labels as [|l labels IH]; intros toks l0 w0; [by left|].
  destruct toks as [|tok toks]; [by left|]. simpl.
  destruct (startswith l (u "I")); [|by left]. right.
  destruct (IH toks l tok.1) as [Heq | (j & l' & tok' & Hl' & Htok' & Heq)].
  - exists 0, l, tok. by rewrite Heq.
  - exists (S j), l', tok'. by rewrite Heq.
Qed.

(** Every span of the spec pairs the type of a label with the surface
    form of the token at the index of that label. *)
Lemma spans_spec_elem {F : Type} (labels : list str) (toks : list (token F)) (ty w : str) :
  (ty, w) ∈ spans_spec labels toks →
  ∃ i l tok, labels !! i = Some l ∧ toks !! i = Some tok
             ∧ ty = type_of l ∧ w = tok.1.
Proof.
  revert toks. induction labels as [|l labels IH]; intros toks Hin.
  - by apply elem_of_nil in Hin.
  - destruct toks as [|tok toks]; [by apply elem_of_nil in Hin|].
    simpl in Hin.
    assert ((ty, w) ∈ spans_spec labels toks →
            ∃ i l' tok', (l :: labels) !! i = Some l' ∧ (tok :: toks) !! i = Some tok'
                         ∧ ty = type_of l' ∧ w = tok'.1) as Htail.
    { intros Ht. destruct (IH toks Ht) as (i & l' & tok' & ? & ? & ? & ?).
      by exists (S i), l', tok'. }
    destruct (startswith l (u "B")); [|by apply Htail].
    apply elem_of_cons in Hin as [Heq | Hin]; [|by apply Htail].
    injection Heq as -> ->.
    destruct (run_last_elem labels toks l tok.1) as [-> | (j & l' & tok' & ? & ? & ->)].
    + by exists 0, l, tok.
    + by exists (S j), l', tok'.
Qed.

(** X3: every span that [extract] returns pairs the type of one label
    with the surface form of the token at the index of that label: the
    text of a span is the surface form of one token, and type and text
    come from the same position. There are at most as many spans as
    labels. *)
Theorem extract_span_of_one_token `{CRFSuite} (self : t) (xs : xseq)
    (sent : list (token features)) (pred_y : list str) (res : list span) :
  tagger self xs = Ok pred_y →
  extract self xs sent = Ok res →
  length res ≤ length pred_y
  ∧ ∀ ty w, (ty, w) ∈ res →
            ∃ i l tok, pred_y !! i = Some l ∧ sent !! i = Some tok
                       ∧ ty = type_of l ∧ w = tok.1.
Proof.
  intros Htag Hres. rewrite (extract_merge _ _ _ _ Htag) in Hres.
  apply merge_spans_ok_spans in Hres as ->.
  split; [|intros ty w; apply spans_spec_elem].
  clear. revert sent. induction pred_y as [|l labels IH]; intros toks; simpl; [lia|].
  destruct toks as [|tok toks]; simpl; [lia|].
  specialize (IH toks). destruct (startswith l (u "B")); simpl; lia.
Qed.

Lemma extract_span_of_one_token_witness :
  length [(u "LOC", u "県")] ≤ length [u "B-LOC"; u "I-LOC"; u "O"]
  ∧ ∀ ty w, (ty, w) ∈ [(u "LOC", u "県")] →
            ∃ i l tok, [u "B-LOC"; u "I-LOC"; u "O"] !! i = Some l
                       ∧ [(u "千葉", ()); (u "県", ()); (u "です", ())] !! i = Some tok
                       ∧ ty = type_of l ∧ w = tok.1.
Proof.
  apply (@extract_span_of_one_token (fake_crf []) fake_trained
           [u "B-LOC"; u "I-LOC"; u "O"]
           [(u "千葉", ()); (u "県", ()); (u "です", ())]
           [u "B-LOC"; u "I-LOC"; u "O"] [(u "LOC", u "県")]).
  - reflexivity.
  - vm_compute. reflexivity.
Defined.

Section SameSurfaces.
Context {F1 F2 : Type} (pred_y : list str) (sent1 : list (token F1)) (sent2 : list (token F2)).
Hypothesis same : ∀ i, i < length pred_y → fst <$> sent1 !! i = fst <$> sent2 !! i.

Lemma getitem_same (i : nat) (A : Type) (k : str → M A) (tr : list event) :
  i < length pred_y →
  (tok ← getitem sent1 i; k tok.1) tr = (tok ← getitem sent2 i; k tok.1) tr.
Proof.
  intros Hi. specialize (same i Hi). rewrite !bind_eq. unfold getitem.
  destruct (sent1 !! i) as [tok1|], (sent2 !! i) as [tok2|]; simpl in same; try done.
  all: try (injection same as Heq; unfold mret, M_ret; by rewrite Heq).
Qed.

Lemma inner_while_same (fuel : nat) :
  ∀ i ws ls tr,
    inner_while fuel pred_y sent1 i ws ls tr = inner_while fuel pred_y sent2 i ws ls tr.
Proof.
  induction fuel as [|fuel IH]; intros i ws ls tr; [done|]. simpl.
  destruct (pred_y !! i) as [l|] eqn:Hl; [|done].
  destruct (startswith l (u "I")); [|done].
  rewrite !(bind_eq (emit _)). unfold emit. cbn beta iota.
  rewrite (getitem_same i _ (λ w, inner_while fuel pred_y sent1 (S i) [w] [l]))
    by (by eapply lookup_lt_Some).
  rewrite !bind_eq.
  destruct (getitem sent2 i (tr ++ [Overwrite i])) as [[tok| |] tr']; [apply IH | done | done].
Qed.

Lemma outer_while_same (fuel : nat) :
  ∀ i res tr,
    outer_while fuel pred_y sent1 i res tr = outer_while fuel pred_y sent2 i res tr.
Proof.
  induction fuel as [|fuel IH]; intros i res tr; [done|]. simpl.
  destruct (pred_y !! i) as [l|] eqn:Hl; [|done].
  destruct (startswith l (u "B")).
  - rewrite !(bind_eq (emit _)). unfold emit. cbn beta iota.
    rewrite (getitem_same i _
               (λ w, '(i', word_stack, label_stack) ← inner_while fuel pred_y sent1 (S i) [w] [l];
                     res' ← close_span word_stack label_stack res;
                     outer_while fuel pred_y sent1 i' res'))
      by (by eapply lookup_lt_Some).
    rewrite !bind_eq.
    destruct (getitem sent2 i (tr ++ [Open i])) as [[tok| |] tr']; [|done|done].
    rewrite !bind_eq, inner_while_same.
    destruct (inner_while fuel pred_y sent2 (S i) [tok.1] [l] tr')
      as [[[[i' ws] ls]| |] tr1]; [|done|done].
    rewrite !bind_eq.
    destruct (close_span ws ls res tr1) as [[res'| |] tr2]; [apply IH | done | done].
  - rewrite !bind_eq. unfold emit. cbn beta iota. apply IH.
Qed.

End SameSurfaces.

(** X4: the scan reads only the surface forms of the tokens at the
    indices of the labels: two token sequences whose surface forms agree
    on the first [len(pred_y)] positions give the same outcome, whatever
    their feature bags and whatever tokens follow. *)
Theorem merge_spans_surfaces_only {F1 F2 : Type} (pred_y : list str)
    (sent1 : list (token F1)) (sent2 : list (token F2)) :
  take (length pred_y) sent1.*1 = take (length pred_y) sent2.*1 →
  merge_spans pred_y sent1 [] = merge_spans pred_y sent2 [].
Proof.
  intros Htake. unfold merge_spans. apply outer_while_same.
  intros i Hi. rewrite <- !list_lookup_fmap.
  rewrite <- (lookup_take_lt (sent1.*1) (length pred_y) i) by done.
  rewrite <- (lookup_take_lt (sent2.*1) (length pred_y) i) by done.
  by rewrite Htake.
Qed.

Lemma merge_spans_surfaces_only_witness :
  merge_spans [u "B-LOC"; u "I-LOC"]
    [(u "千葉", 1); (u "県", 2); (u "です", 3); (u "ね", 4)] []
  = merge_spans [u "B-LOC"; u "I-LOC"] [(u "千葉", true); (u "県", false)] [].
Proof.
  apply (@merge_spans_surfaces_only nat bool [u "B-LOC"; u "I-LOC"]
           [(u "千葉", 1); (u "県", 2); (u "です", 3); (u "ね", 4)]
           [(u "千葉", true); (u "県", false)]).
  reflexivity.
Defined.

Lemma spans_spec_at_B_tok {F : Type} (pre post : list str) (b : str) (sent : list (token F))
    (tok : token F) :
  startswith b (u "B") = true →
  sent !! length pre = Some tok →
  spans_spec (pre ++ b :: post) sent !! count_B pre
  = Some (type_of (run_last post (drop (S (length pre)) sent) b tok.1).1,
          (run_last post (drop (S (length pre)) sent) b tok.1).2).
Proof.
  intros HB Htok. pose proof (lookup_lt_Some _ _ _ Htok) as Hlen.
  rewrite spans_spec_app; [|lia|].
  2:{ intros l [= <-]. by apply startswith_B_not_I. }
  rewrite lookup_app_r; rewrite spans_spec_length; rewrite ?length_take; try lia.
  rewrite Nat.sub_diag, (drop_S _ _ _ Htok). simpl. by rewrite HB.
Qed.

Lemma split_second (p a rest : str) :
  hyphen ∉ p → hyphen ∉ a →
  split hyphen (p ++ hyphen :: a ++ hyphen :: rest) !! 1 = Some a.
Proof.
  intros Hp Ha.
  assert (∀ s, hyphen ∉ s → ∀ t, split hyphen (s ++ hyphen :: t) = s :: split hyphen t)
    as Hcut.
  { clear. induction s as [|c s IH]; intros Hs t; simpl.
    - done.
    - apply not_elem_of_cons in Hs as [Hc Hs]. apply not_eq_sym, N.eqb_neq in Hc.
      by rewrite Hc, IH. }
  by rewrite (Hcut p Hp), (Hcut a Ha).
Qed.

(** X5: the type of a span is cut at the second hyphen of the label: for
    a [B] label [B...-a-rest] that no [I] label follows, the span has the
    type [a], without [rest]. *)
Theorem extract_type_cut_at_second_hyphen `{CRFSuite} (self : t) (xs : xseq)
    (sent : list (token features)) (pred_y : list str) (res : list span)
    (pre post : list str) (p a rest : str) (tok : token features) :
  tagger self xs = Ok pred_y →
  extract self xs sent = Ok res →
  pred_y = pre ++ (p ++ hyphen :: a ++ hyphen :: rest) :: post →
  startswith p (u "B") = true →
  hyphen ∉ p →
  hyphen ∉ a →
  (∀ l, head post = Some l → startswith l (u "I") = false) →
  sent !! length pre = Some tok →
  res !! count_B pre = Some (a, tok.1).
Proof.
  intros Htag Hres -> HB Hp Ha Hpost Htok.
  rewrite (extract_merge _ _ _ _ Htag) in Hres.
  apply merge_spans_ok_spans in Hres as ->.
  rewrite (spans_spec_at_B_tok pre post _ sent tok); [| |done].
  2:{ apply startswith_app in HB as [p' ->]. apply startswith_app.
      exists (p' ++ hyphen :: a ++ hyphen :: rest). by rewrite <- app_assoc. }
  assert (∀ l0 w0, run_last post (drop (S (length pre)) sent) l0 w0 = (l0, w0)) as Hrun.
  { intros l0 w0. destruct post as [|l post]; [done|].
    destruct (drop (S (length pre)) sent); [done|]. simpl. by rewrite (Hpost l). }
  rewrite Hrun. simpl. unfold type_of. by rewrite split_second.
Qed.

Lemma extract_type_cut_at_second_hyphen_witness :
  [(u "LOC", u "千葉")] !! count_B [u "O"] = Some (u "LOC", (u "千葉", ()).1).
Proof.
  apply (@extract_type_cut_at_second_hyphen (fake_crf []) fake_trained
           [u "O"; u "B-LOC-STATION"; u "O"]
           [(u "駅", ()); (u "千葉", ()); (u "です", ())]
           [u "O"; u "B-LOC-STATION"; u "O"] [(u "LOC", u "千葉")]
           [u "O"] [u "O"] (u "B") (u "LOC") (u "STATION") (u "千葉", ())).
  - reflexivity.
  - vm_compute. reflexivity.
  - reflexivity.
  - reflexivity.
  - intros Hin. apply list_elem_of_singleton in Hin. discriminate Hin.
  - intros Hin. repeat (apply elem_of_cons in Hin as [Hin|Hin]; [discriminate Hin|]).
    by apply elem_of_nil in Hin.
  - intros l [= <-]. reflexivity.
  - reflexivity.
Defined.

(** ** More on the rule-based lookups *)

(** The head of the list sorted by decreasing length is the first of its
    longest elements. *)
Lemma stable_sort_len_first (l1 l2 : list str) (r : str) :
  (∀ x, x ∈ l1 → length x < length r) →
  (∀ x, x ∈ l2 → length x ≤ length r) →
  head (stable_sort (λ y x, length x <? length y) (l1 ++ r :: l2)) = Some r.
Proof.
  intros H1 H2. induction l1 as [|a l1 IH]; simpl.
  - pose proof (stable_sort_len_head l2) as Hhead.
    unfold stable_sort in *.
    destruct (foldr (insert_sorted (λ y x, length x <? length y)) [] l2) as [|h s'];
      [done|].
    simpl. destruct Hhead as [Hh _]. specialize (H2 h Hh).
    by rewrite (proj2 (Nat.ltb_ge _ _) H2).
  - assert (head (stable_sort (λ y x, length x <? length y) (l1 ++ r :: l2)) = Some r)
      as Hhead.
    { apply IH. intros x Hx. apply H1. by apply list_elem_of_further. }
    unfold stable_sort in *. simpl.
    destruct (foldr (insert_sorted (λ y x, length x <? length y)) [] (l1 ++ r :: l2))
      as [|h s']; [done|].
    simpl in Hhead. injection Hhead as ->. simpl.
    by rewrite (proj2 (Nat.ltb_lt _ _) (H1 a (list_elem_of_here _ _))).
Qed.

(** X6: among the longest entries of the location dictionary that occur
    in the text, the location is the one the object comes to first. *)
Theorem extract_location_first_of_longest (self : AttributeExtractor.t) (text : str)
    (before after : list str) (r : str) :
  AttributeExtractor.__locations self = before ++ r :: after →
  occurs_in r text →
  (∀ loc, loc ∈ before → occurs_in loc text → length loc < length r) →
  (∀ loc, loc ∈ after → occurs_in loc text → length loc ≤ length r) →
  AttributeExtractor.__extract_location self text = r.
Proof.
  intros Hlocs Hr Hbefore Hafter. unfold AttributeExtractor.__extract_location.
  rewrite Hlocs, List.filter_app. simpl.
  rewrite (proj2 (contains_occurs text r) Hr).
  pose proof (stable_sort_len_first
                (List.filter (λ loc, contains text loc) before)
                (List.filter (λ loc, contains text loc) after) r) as Hhead.
  destruct (stable_sort _ _) as [|h s'].
  - discriminate Hhead.
    + intros x [Hx Hc]%list_elem_of_In%List.filter_In.
      apply Hbefore; [by apply list_elem_of_In | by apply contains_occurs].
    + intros x [Hx Hc]%list_elem_of_In%List.filter_In.
      apply Hafter; [by apply list_elem_of_In | by apply contains_occurs].
  - simpl in Hhead. assert (Some h = Some r) as [= ->]; [|done].
    apply Hhead.
    + intros x [Hx Hc]%list_elem_of_In%List.filter_In.
      apply Hbefore; [by apply list_elem_of_In | by apply contains_occurs].
    + intros x [Hx Hc]%list_elem_of_In%List.filter_In.
      apply Hafter; [by apply list_elem_of_In | by apply contains_occurs].
Qed.

Lemma extract_location_first_of_longest_witness :
  AttributeExtractor.__extract_location
    {| AttributeExtractor.__locations := [u "千葉"; u "船橋"; u "東京"; u "柏"];
       AttributeExtractor.__genres := [] |} (u "東京か船橋でラーメン")
  = u "船橋".
Proof.
  apply (extract_location_first_of_longest
           {| AttributeExtractor.__locations := [u "千葉"; u "船橋"; u "東京"; u "柏"];
              AttributeExtractor.__genres := [] |} (u "東京か船橋でラーメン")
           [u "千葉"] [u "東京"; u "柏"] (u "船橋")).
  - reflexivity.
  - apply contains_occurs. vm_compute. reflexivity.
  - intros loc Hloc Hocc. apply contains_occurs in Hocc.
    apply list_elem_of_singleton in Hloc. subst loc. vm_compute in Hocc. discriminate Hocc.
  - intros loc Hloc _.
    repeat (apply elem_of_cons in Hloc as [->|Hloc]; [vm_compute; lia|]).
    by apply elem_of_nil in Hloc.
Defined.

(** X7: the genre is never one of which no food item occurs in the text:
    it is the empty string or a genre of the dictionary with a food item
    in the text. *)
Theorem extract_genre_in_dictionary (self : AttributeExtractor.t) (text : str) :
  AttributeExtractor.__extract_genre self text = []
  ∨ ∃ foods food,
      (AttributeExtractor.__extract_genre self text, foods) ∈ AttributeExtractor.__genres self
      ∧ food ∈ foods
      ∧ occurs_in food text.
Proof.
  unfold AttributeExtractor.__extract_genre. rewrite genres_loop_spec.
  destruct (List.find _ _) as [[g food]|] eqn:Hfind; [|by left]. right.
  apply List.find_some in Hfind as [Hin Hc]. simpl in *.
  apply contains_occurs in Hc. unfold genre_pairs in Hin.
  apply List.in_flat_map in Hin as ([g' foods] & Hitem & Hpair).
  apply list_elem_of_In, list_elem_of_fmap in Hpair as (food' & [= -> ->] & Hfood).
  exists foods, food'. split; [by apply list_elem_of_In | done].
Qed.

(** A run of characters of the class that is followed by a character
    outside the class other than the currency suffix is no match. *)
Lemma match_plus_yen_blocked (C : char → bool) (ds rest : str) (c : char) :
  Forall (λ d, C d = true) ds → yen ∉ ds → C c = false → c ≠ yen →
  match_plus_yen C (ds ++ c :: rest) = None.
Proof.
  intros Hds Hyen Hc Hne. induction Hds as [|d ds Hd Hds IH].
  - simpl. by rewrite Hc.
  - apply not_elem_of_cons in Hyen as [Hd' Hyen].
    change ((d :: ds) ++ c :: rest) with (d :: (ds ++ c :: rest)).
    rewrite match_plus_yen_cons, Hd, IH by done.
    destruct ds as [|d' ds]; simpl.
    + by rewrite (proj2 (N.eqb_neq _ _) Hne).
    + apply not_elem_of_cons in Hyen as [Hd'' _].
      by rewrite (proj2 (N.eqb_neq _ _) (not_eq_sym Hd'')).
Qed.

(** A run of characters of a class without the currency suffix, followed
    by the suffix, is matched in full. *)
Lemma match_plus_yen_exact (C : char → bool) (ks post : str) :
  ks ≠ [] → Forall (λ c, C c = true) ks → C yen = false →
  match_plus_yen C (ks ++ yen :: post) = Some (S (length ks)).
Proof.
  intros Hne Hks Hyen. induction Hks as [|k ks Hk Hks IH]; [done|].
  change ((k :: ks) ++ yen :: post) with (k :: (ks ++ yen :: post)).
  rewrite match_plus_yen_cons, Hk. destruct ks as [|k' ks].
  - simpl. by rewrite Hyen.
  - by rewrite IH.
Qed.

(** X8: decimal digits that stand directly before numeral glyphs are not
    part of the amount: for a text that starts with digits, followed by
    numeral glyphs and the currency suffix (as in 3千円), the budget is
    what the numeral conversion gives for the glyphs alone. *)
Theorem extract_budget_drops_digits_before_glyphs `{UnicodeDecimal} `{NumeralConversion}
    (ds ks post : str) :
  Forall (λ c, is_decimal c = true) ds →
  Forall (λ c, is_kansuji c = false) ds →
  yen ∉ ds →
  ks ≠ [] →
  Forall (λ c, is_kansuji c = true) ks →
  Forall (λ c, is_decimal c = false) ks →
  AttributeExtractor.__extract_budget (ds ++ ks ++ yen :: post) = kansuji2arabic ks.
Proof.
  intros Hds Hdsk Hyen Hne Hks Hksd.
  assert (pattern_at (ks ++ yen :: post) = Some (S (length ks))) as Hat.
  { unfold pattern_at. destruct ks as [|k ks]; [done|].
    apply Forall_cons in Hksd as [Hk _].
    change ((k :: ks) ++ yen :: post) with (k :: (ks ++ yen :: post)).
    rewrite (match_plus_yen_cons is_decimal), Hk.
    by apply (match_plus_yen_exact is_kansuji (k :: ks) post). }
  assert (matches_at (ks ++ yen :: post)) as Hm.
  { apply pattern_at_matches. by eexists. }
  destruct (findall_first ds (ks ++ yen :: post) Hm) as (n & Hn & Hhead).
  - intros pre1 s1 Heq Hlen Hs1. apply pattern_at_matches in Hs1 as [m Hs1].
    assert (pre1 = take (length pre1) ds ∧ s1 = drop (length pre1) ds ++ ks ++ yen :: post)
      as [_ ->].
    { rewrite <- (take_drop (length pre1) ds), <- app_assoc in Heq.
      apply app_inj_1 in Heq as [? ?]; [done|]. rewrite length_take. lia. }
    assert (∃ d ds', drop (length pre1) ds = d :: ds') as (d & ds' & Hdrop).
    { destruct (drop (length pre1) ds) eqn:Hd; [|by eauto].
      apply (f_equal length) in Hd. rewrite length_drop in Hd. simpl in Hd. lia. }
    assert (Forall (λ c, is_decimal c = true) (d :: ds')
            ∧ Forall (λ c, is_kansuji c = false) (d :: ds') ∧ yen ∉ d :: ds')
      as (Hd1 & Hd2 & Hd3).
    { rewrite <- Hdrop. split; [by apply Forall_drop|]. split; [by apply Forall_drop|].
      intros Hin. apply Hyen. rewrite <- (take_drop (length pre1) ds).
      apply elem_of_app. by right. }
    rewrite Hdrop in Hs1. unfold pattern_at in Hs1.
    destruct ks as [|k ks]; [done|].
    apply Forall_cons in Hks as [Hk _]. apply Forall_cons in Hksd as [Hkd _].
    change ((k :: ks) ++ yen :: post) with (k :: (ks ++ yen :: post)) in Hs1.
    rewrite (match_plus_yen_blocked is_decimal (d :: ds') _ k) in Hs1; try done.
    + apply Forall_cons in Hd2 as [Hd2 _].
      change ((d :: ds') ++ k :: ks ++ yen :: post)
        with (d :: (ds' ++ k :: ks ++ yen :: post)) in Hs1.
      by rewrite match_plus_yen_cons, Hd2 in Hs1.
    + intros ->. by vm_compute in Hk.
  - rewrite Hat in Hn. injection Hn as <-.
    unfold AttributeExtractor.__extract_budget.
    destruct (findall (ds ++ ks ++ yen :: post)) as [|m ms]; [done|].
    simpl in Hhead. injection Hhead as ->.
    change (ks ++ yen :: post) with (ks ++ [yen] ++ post).
    rewrite app_assoc, take_app_length'; [|rewrite length_app; simpl; lia].
    by rewrite drop_last_snoc.
Qed.

Lemma extract_budget_drops_digits_before_glyphs_witness :
  @AttributeExtractor.__extract_budget ascii_decimal simple_numerals
    (u "3" ++ u "千" ++ yen :: u "以内で")
  = @kansuji2arabic simple_numerals (u "千").
Proof.
  apply (@extract_budget_drops_digits_before_glyphs ascii_decimal simple_numerals
           (u "3") (u "千") (u "以内で")).
  - repeat constructor.
  - repeat constructor.
  - intros Hin. apply list_elem_of_singleton in Hin. discriminate Hin.
  - discriminate.
  - repeat constructor.
  - repeat constructor.
Defined.

(** X12: the budget is the value of the numeral conversion, passed on
    as it is, at a string the extractor picks. For a text with a match it
    is the numeral of the first match, the one at the leftmost position
    where a match starts, without its currency suffix. For a text in which
    no match starts, [findall] is empty and the string is the empty one:
    the extractor has no case of its own there, so what it returns is
    what the conversion gives for the empty string. *)
Theorem extract_budget_of_first_match `{UnicodeDecimal} `{NumeralConversion} (text : str) :
  ((∀ pre s, text = pre ++ s → ¬ matches_at s) →
   findall text = []
   ∧ AttributeExtractor.__extract_budget text = kansuji2arabic [])
  ∧ (∀ pre s,
       text = pre ++ s →
       matches_at s →
       (∀ pre1 s1, text = pre1 ++ s1 → length pre1 < length pre → ¬ matches_at s1) →
       ∃ ns post,
         s = ns ++ yen :: post
         ∧ is_budget_match (ns ++ [yen])
         ∧ head (findall text) = Some (ns ++ [yen])
         ∧ AttributeExtractor.__extract_budget text = kansuji2arabic ns).
Proof.
  unfold AttributeExtractor.__extract_budget. split.
  - intros Hnone. by rewrite findall_no_match.
  - intros pre s -> Hs Hleft.
    destruct (findall_first pre s Hs Hleft) as (n & Hn & Hhead).
    destruct (pattern_at_take s n Hn) as (ns & post & -> & Hm & Htake).
    exists ns, post. rewrite Htake in Hhead.
    split; [done|]. split; [done|]. split; [done|].
    destruct (findall (pre ++ ns ++ yen :: post)) as [|m ms]; [done|].
    injection Hhead as ->. by rewrite drop_last_snoc.
Qed.

Lemma extract_budget_of_first_match_witness :
  (@findall ascii_decimal (u "安いお店でお願いします") = []
   ∧ @AttributeExtractor.__extract_budget ascii_decimal simple_numerals
       (u "安いお店でお願いします")
     = @kansuji2arabic simple_numerals [])
  ∧ ∃ ns post,
      u "五千円以内で、できれば3000円" = ns ++ yen :: post
      ∧ @is_budget_match ascii_decimal (ns ++ [yen])
      ∧ head (@findall ascii_decimal (u "五千円以内で、できれば3000円")) = Some (ns ++ [yen])
      ∧ @AttributeExtractor.__extract_budget ascii_decimal simple_numerals
          (u "五千円以内で、できれば3000円")
        = @kansuji2arabic simple_numerals ns.
Proof.
  split.
  - apply (proj1 (@extract_budget_of_first_match ascii_decimal simple_numerals
                    (u "安いお店でお願いします"))).
    apply (@no_match_by_positions ascii_decimal). vm_compute. repeat constructor.
  - apply (proj2 (@extract_budget_of_first_match ascii_decimal simple_numerals
                    (u "五千円以内で、できれば3000円")) [] (u "五千円以内で、できれば3000円")).
    + vm_compute. reflexivity.
    + exists (u "五千円"), (u "以内で、できれば3000円"). split; [|vm_compute; reflexivity].
      exists (u "五千"). split; [discriminate|]. split; [|vm_compute; reflexivity].
      right. repeat constructor.
    + intros pre1 s1 _ Hlen. simpl in Hlen. lia.
Defined.

(** ** More on [evaluate] and [__init__] *)

Lemma elem_of_tagset (y_true y_pred : list (list str)) (tag : str) :
  tag ∈ tagset y_true y_pred ↔ tag ∈ concat y_true ∧ tag ≠ u "O".
Proof.
  unfold tagset. rewrite (stable_sort_perm sort_key (lex_ltb str_ltb)).
  rewrite elem_of_elements, elem_of_difference, elem_of_list_to_set, elem_of_classes_.
  by rewrite elem_of_singleton.
Qed.

Lemma NoDup_tagset (y_true y_pred : list (list str)) : NoDup (tagset y_true y_pred).
Proof.
  unfold tagset. rewrite (stable_sort_perm sort_key (lex_ltb str_ltb)).
  apply NoDup_elements.
Qed.

(** X9: the labels of the report depend only on which labels occur in the
    gold sequences, not on their order or number, and not on the order in
    which the set of line 70 yields them: sorting any duplicate-free
    enumeration of the gold labels other than [O] gives [tagset]. *)
Theorem tagset_of_label_set (y_true y_pred : list (list str)) :
  (∀ tags : list str,
      NoDup tags →
      (∀ tag, tag ∈ tags ↔ tag ∈ concat y_true ∧ tag ≠ u "O") →
      stable_sort key_before tags = tagset y_true y_pred)
  ∧ (∀ y_true' y_pred' : list (list str),
        (∀ tag, tag ∈ concat y_true' ↔ tag ∈ concat y_true) →
        tagset y_true' y_pred' = tagset y_true y_pred).
Proof.
  assert (∀ tags : list str,
             NoDup tags →
             (∀ tag, tag ∈ tags ↔ tag ∈ concat y_true ∧ tag ≠ u "O") →
             stable_sort key_before tags = tagset y_true y_pred) as Hany.
  { intros tags Hnodup Helem.
    pose proof (elem_of_tagset y_true y_pred) as Hts.
    pose proof (NoDup_tagset y_true y_pred) as Htn.
    apply (StronglySorted_unique_strong (λ a b, key_before b a = false)).
    - intros a b _ _ Hba Hab. simpl in *. apply sort_key_inj. by apply key_before_total.
    - apply (stable_sort_sorted sort_key (lex_ltb str_ltb)
               key_before_irrefl key_before_trans key_before_total).
    - unfold tagset.
      apply (stable_sort_sorted sort_key (lex_ltb str_ltb)
               key_before_irrefl key_before_trans key_before_total).
    - apply NoDup_Permutation; [|done|].
      + by rewrite (stable_sort_perm sort_key (lex_ltb str_ltb) tags).
      + intros tag. rewrite (stable_sort_perm sort_key (lex_ltb str_ltb) tags).
        by rewrite Helem, Hts. }
  split; [done|].
  intros y_true' y_pred' Hsame.
  pose proof (elem_of_tagset y_true' y_pred') as Hts'.
  pose proof (NoDup_tagset y_true' y_pred') as Htn'.
  rewrite <- (Hany (tagset y_true' y_pred')); [|done|].
  - symmetry. apply (StronglySorted_unique_strong (λ a b, key_before b a = false)).
    + intros a b _ _ Hba Hab. simpl in *. apply sort_key_inj. by apply key_before_total.
    + apply (stable_sort_sorted sort_key (lex_ltb str_ltb)
               key_before_irrefl key_before_trans key_before_total).
    + unfold tagset.
      apply (stable_sort_sorted sort_key (lex_ltb str_ltb)
               key_before_irrefl key_before_trans key_before_total).
    + by rewrite (stable_sort_perm sort_key (lex_ltb str_ltb) (tagset y_true' y_pred')).
  - intros tag. by rewrite Hts', Hsame.
Qed.

(** X10: the constructor swallows [FileNotFoundError] and nothing else:
    it raises exactly what [Tagger.open] raises other than
    [FileNotFoundError], it prints its line exactly when [open] raised
    [FileNotFoundError], and the object it returns holds the tagger as
    [open] left it. *)
Theorem init_outcomes `{CRFSuite} (module_dir model_file : str) :
  (∀ e, (__init__ module_dir model_file).1 = Raise e
        ↔ (Tagger_open Tagger_new (path_join module_dir model_file)).1 = Raise e
          ∧ e ≠ FileNotFoundError)
  ∧ ((__init__ module_dir model_file).2 = [u "Learn"]
     ↔ (Tagger_open Tagger_new (path_join module_dir model_file)).1
       = Raise FileNotFoundError)
  ∧ ((__init__ module_dir model_file).2 = []
     ∨ (__init__ module_dir model_file).2 = [u "Learn"])
  ∧ (∀ self, (__init__ module_dir model_file).1 = Ok self →
             __tagger self = (Tagger_open Tagger_new (path_join module_dir model_file)).2).
Proof.
  unfold __init__.
  destruct (Tagger_open Tagger_new (path_join module_dir model_file)) as [[[]|e'|] tg];
    [|destruct e'|]; simpl; split_and!;
    try (intuition congruence);
    try (by intros self [= <-]);
    try (by intros e; split; [intros [= <-] | intros [[= <-] ?]]).
Qed.

Lemma evaluate_class_indices_lookup (classes : list str) (idx : nat) (cls : str) :
  NoDup classes → classes !! idx = Some cls →
  evaluate_class_indices classes !! cls = Some idx.
Proof.
  unfold evaluate_class_indices. revert idx cls.
  induction classes as [|x l IH] using rev_ind; intros idx cls Hnodup Hidx; [done|].
  rewrite imap_app, foldl_app. simpl. rewrite Nat.add_0_r.
  apply NoDup_app in Hnodup as (Hl & Hx & _).
  destruct (decide (idx < length l)) as [Hlt|Hge].
  - rewrite lookup_app_l in Hidx by done.
    rewrite lookup_insert_ne.
    + by apply IH.
    + intros ->. apply (Hx cls); [by eapply list_elem_of_lookup_2 | apply list_elem_of_here].
  - rewrite lookup_app_r in Hidx by lia.
    destruct (idx - length l) as [|k] eqn:Hk; [|by destruct k].
    injection Hidx as ->. replace idx with (length l) by lia.
    apply lookup_insert_eq.
Qed.

Lemma NoDup_classes_ (y_true : list (list str)) : NoDup (classes_ y_true).
Proof.
  unfold classes_. rewrite (stable_sort_perm id str_ltb). apply NoDup_remove_dups.
Qed.

(** X11: the look-up of line 77 never misses a key, and the indices it
    gives are aligned with the names of the report: the index number [k]
    is the position in [lb.classes_] of the label number [k] of [tagset];
    no index occurs twice. *)
Theorem evaluate_labels_aligned (y_true y_pred : list (list str)) :
  ∃ labels,
    evaluate_labels y_true y_pred = Some labels
    ∧ length labels = length (tagset y_true y_pred)
    ∧ (∀ k idx, labels !! k = Some idx →
                ∃ tag, tagset y_true y_pred !! k = Some tag
                       ∧ classes_ y_true !! idx = Some tag)
    ∧ NoDup labels.
Proof.
  unfold evaluate_labels.
  assert (∀ tag, tag ∈ tagset y_true y_pred →
                 ∃ idx, classes_ y_true !! idx = Some tag
                        ∧ evaluate_class_indices (classes_ y_true) !! tag = Some idx) as Hkey.
  { intros tag [Hin _]%elem_of_tagset. apply elem_of_classes_ in Hin.
    apply list_elem_of_lookup in Hin as [idx Hidx]. exists idx. split; [done|].
    by apply evaluate_class_indices_lookup; [apply NoDup_classes_|]. }
  destruct (mapM (λ cls, evaluate_class_indices (classes_ y_true) !! cls)
              (tagset y_true y_pred)) as [labels|] eqn:Hmap.
  2:{ exfalso. apply mapM_None_1 in Hmap. apply Exists_exists in Hmap as (tag & Hin & Hnone).
      destruct (Hkey tag Hin) as (idx & _ & Hsome). simpl in Hnone.
      rewrite Hsome in Hnone. discriminate Hnone. }
  exists labels. split; [done|].
  apply mapM_Some_1 in Hmap.
  pose proof (Forall2_length _ _ _ Hmap) as Hlen.
  assert (∀ k idx, labels !! k = Some idx →
                   ∃ tag, tagset y_true y_pred !! k = Some tag
                          ∧ classes_ y_true !! idx = Some tag) as Haligned.
  { intros k idx Hk.
    destruct (Forall2_lookup_r _ _ _ _ _ Hmap Hk) as (tag & Htag & Hlook).
    exists tag. split; [done|].
    destruct (Hkey tag) as (idx' & Hidx' & Hlook'); [by eapply list_elem_of_lookup_2|].
    rewrite Hlook' in Hlook. by injection Hlook as <-. }
  split; [done|]. split; [done|].
  apply NoDup_alt. intros k1 k2 idx Hk1 Hk2.
  destruct (Haligned k1 idx Hk1) as (tag1 & Ht1 & Hc1).
  destruct (Haligned k2 idx Hk2) as (tag2 & Ht2 & Hc2).
  rewrite Hc1 in Hc2. injection Hc2 as <-.
  by apply (NoDup_lookup _ k1 k2 tag1 (NoDup_tagset y_true y_pred)).
Qed.

Lemma tagset_of_label_set_witness :
  stable_sort key_before [u "I-LOC"; u "B-LOC"; u "B-GENRE"]
  = tagset [[u "B-LOC"; u "O"; u "I-LOC"]; [u "O"; u "B-GENRE"; u "B-LOC"]] [].
Proof.
  apply (proj1 (tagset_of_label_set
                  [[u "B-LOC"; u "O"; u "I-LOC"]; [u "O"; u "B-GENRE"; u "B-LOC"]] [])).
  - apply NoDup_cons. split.
    + intros Hin. repeat (apply elem_of_cons in Hin as [Hin|Hin]; [discriminate Hin|]).
      by apply elem_of_nil in Hin.
    + apply NoDup_cons. split.
      * intros Hin. repeat (apply elem_of_cons in Hin as [Hin|Hin]; [discriminate Hin|]).
        by apply elem_of_nil in Hin.
      * apply NoDup_singleton.
  - intros tag. split.
    + intros Hin.
      repeat (apply elem_of_cons in Hin as [->|Hin];
              [split; [vm_compute; repeat constructor | discriminate]|]).
      by apply elem_of_nil in Hin.
    + intros [Hin Hne]. simpl in Hin.
      repeat (apply elem_of_cons in Hin as [->|Hin];
              [first [by destruct Hne | vm_compute; repeat constructor]|]).
      by apply elem_of_nil in Hin.
Defined.
